(** * cybercipher: masking, redaction, constant-time comparison, bloom filter

    A shallow embedding of [src/mask.js], [src/compare.js],
    [src/bloomFilter.js] and of [redactFile] in [cli.js], with the
    properties of the specification stated and proved over it.

    Conventions of the embedding.
    - JavaScript strings are [string]; a character is its code unit.
    - A JavaScript Number is either [NaN] or a dyadic rational [m * 2^e];
      products are rounded to binary64 (53 bits, ties to even) as IEEE 754
      prescribes, in agreement with the Standard Library's [SFmul]
      ([NumberFacts.mul_ieee_agrees]).  Integer additions and subtractions
      are exact, which is the behaviour of binary64 on safe integers.
    - Code that can throw returns a [result]. *)

From Stdlib Require Import ZArith QArith Qround Lia List Ascii String Bool SpecFloat.
From stdpp Require Import base option list.

Open Scope Z_scope.

(** ** Exceptions *)

Inductive error : Type :=
| TypeError
| RangeError
| SyntaxError
| ReferenceError.

Inductive result (A : Type) : Type :=
| Ok (a : A)
| Throw (e : error).

Arguments Ok {A} a.
Arguments Throw {A} e.

Definition bind {A B : Type} (r : result A) (k : A -> result B) : result B :=
  match r with
  | Ok a => k a
  | Throw e => Throw e
  end.

Notation "'let*' x ':=' r 'in' k" := (bind r (fun x => k))
  (at level 10, x name, r at level 100, k at level 200).

(** ** Values *)

(** The values a caller can pass where a string is expected; [typeof v] is
    ['string'] exactly for [VString]. *)
Inductive value : Type :=
| VUndefined
| VNull
| VBoolean (b : bool)
| VNumber (n : Z)
| VString (s : string)
| VObject.

Definition is_string (v : value) : bool :=
  match v with
  | VString _ => true
  | _ => false
  end.

(** ** Numbers *)

Module Number.

(** [Finite m e] is the real number [m * 2^e]. *)
Inductive number : Type :=
| NaN
| Finite (m e : Z).

Definition of_Z (z : Z) : number := Finite z 0.

(** Round the positive significand [m] to 53 bits, ties to even, and
    adjust the exponent: the binary64 value nearest to [m * 2^e].
    The exponents met in this program stay far inside the binary64
    range, so overflow and subnormals do not arise. *)
Definition round53 (m e : Z) : Z * Z :=
  let d := Z.log2 m - 52 in
  if d <=? 0 then (m, e)
  else
    let q := m / 2 ^ d in
    let r := m mod 2 ^ d in
    let half := 2 ^ (d - 1) in
    let q' := if r <? half then q
              else if half <? r then q + 1
              else if Z.even q then q else q + 1 in
    (q', e + d).

Definition round_binary64 (m e : Z) : number :=
  match m with
  | 0 => Finite 0 0
  | Z.pos _ => let '(q, e') := round53 m e in Finite q e'
  | Z.neg _ => let '(q, e') := round53 (- m) e in Finite (- q) e'
  end.

(** [a * b] on Numbers. *)
Definition mul (a b : number) : number :=
  match a, b with
  | Finite ma ea, Finite mb eb => round_binary64 (ma * mb) (ea + eb)
  | _, _ => NaN
  end.

(** [Math.round]: the integer nearest to [x], halves going up
    ([floor (x + 1/2)] on the exact value). *)
Definition Math_round (x : number) : number :=
  match x with
  | NaN => NaN
  | Finite m e =>
      if 0 <=? e then Finite (m * 2 ^ e) 0
      else Finite ((2 * m + 2 ^ (- e)) / 2 ^ (- e + 1)) 0
  end.

(** [ToIntegerOrInfinity] on the results of [Math_round]: [NaN] is 0. *)
Definition ToInteger (x : number) : Z :=
  match x with
  | NaN => 0
  | Finite m e => if 0 <=? e then m * 2 ^ e else Z.quot m (2 ^ (- e))
  end.

(** The binary64 value nearest to the integer [z], itself an integer:
    what an addition or a subtraction of integer Numbers returns for the
    exact result [z]. *)
Definition round_integer (z : Z) : Z :=
  match round_binary64 z 0 with
  | Finite m e => m * 2 ^ e
  | NaN => 0
  end.

(** The binary64 values nearest to the literals [0.3], [0.7] and [1]:
    [0x1.3333333333333p-2], [0x1.6666666666666p-1] and [1]. *)
Definition lit_0_3 : number := Finite 5404319552844595 (-54).
Definition lit_0_7 : number := Finite 6305039478318694 (-53).
Definition lit_1 : number := Finite 1 0.

(** Equality of the denoted reals. *)
Definition eqb (a b : number) : bool :=
  match a, b with
  | NaN, NaN => true
  | Finite ma ea, Finite mb eb =>
      let e := Z.min ea eb in
      ma * 2 ^ (ea - e) =? mb * 2 ^ (eb - e)
  | _, _ => false
  end.

(** The same product in the Standard Library's model of IEEE 754. *)
Definition to_spec_float (x : number) : spec_float :=
  match x with
  | NaN => S754_nan
  | Finite 0 _ => S754_zero false
  | Finite (Z.pos p) e => S754_finite false p e
  | Finite (Z.neg p) e => S754_finite true p e
  end.

Definition of_spec_float (x : spec_float) : number :=
  match x with
  | S754_zero _ => Finite 0 0
  | S754_finite false p e => Finite (Z.pos p) e
  | S754_finite true p e => Finite (Z.neg p) e
  | _ => NaN
  end.

Definition mul_ieee (a b : number) : number :=
  of_spec_float (SFmul 53 1024 (to_spec_float a) (to_spec_float b)).

(** The record after [n + 1] shifts of a non-negative significand. *)
Definition shifted (m : Z) (n : nat) : shr_record :=
  let rho := m mod 2 ^ Z.of_nat (S n) in
  let half := 2 ^ Z.of_nat n in
  {| shr_m := m / 2 ^ Z.of_nat (S n);
     shr_r := half <=? rho;
     shr_s := negb (rho =? 0) && negb (rho =? half) |}.

End Number.

Import Number.

(** ** Strings *)

Definition clamp (n : Z) (i : Z) : Z := Z.max 0 (Z.min i n).

(** [s.substring(start, end)]: both indices are clamped to the string and
    swapped when out of order. *)
Definition substring (s : string) (start end_ : Z) : string :=
  let n := Z.of_nat (String.length s) in
  let a := clamp n start in
  let b := clamp n end_ in
  let lo := Z.min a b in
  let hi := Z.max a b in
  String.substring (Z.to_nat lo) (Z.to_nat (hi - lo)) s.

Fixpoint repeat_string (c : string) (n : nat) : string :=
  match n with
  | O => EmptyString
  | S n' => String.append c (repeat_string c n')
  end.

(** [c.repeat(count)]: the count goes through [ToIntegerOrInfinity]; a
    negative count is a [RangeError].  An engine also throws a
    [RangeError] when the result would exceed the longest string it can
    hold; this definition has no such bound, so it follows the engine
    where the result fits, as it does whenever the result is no longer
    than a string at hand. *)
Definition repeat (c : string) (count : number) : result string :=
  let n := ToInteger count in
  if n <? 0 then Throw RangeError else Ok (repeat_string c (Z.to_nat n)).

(** ** src/mask.js *)

(** [maskChar] is a literal or a function from the requested length to the
    replacement. *)
Inductive mask_char : Type :=
| Literal (c : string)
| Generator (f : number -> result string).

(** The options object; an absent property is [None]. *)
Record options : Type := {
  visibleStart : option Z;
  visibleEnd : option Z;
  maskChar : option mask_char;
  sensitivity : option string
}.

Definition empty_options : options :=
  {| visibleStart := None; visibleEnd := None;
     maskChar := None; sensitivity := None |}.

(** The four options as the destructuring reads them, defaults applied. *)
Definition start_of (o : options) : Z := default 2 (visibleStart o).
Definition end_of (o : options) : Z := default 2 (visibleEnd o).
Definition char_of (o : options) : mask_char := default (Literal "*") (maskChar o).
Definition key_of (o : options) : string := default "medium"%string (sensitivity o).

(** What is passed as the second argument. *)
Inductive options_arg : Type :=
| OptionsUndefined
| OptionsNull
| OptionsObject (o : options).

(** [options = {}] with the destructuring that follows: [undefined] takes
    the default, [null] cannot be destructured. *)
Definition destructure (a : options_arg) : result options :=
  match a with
  | OptionsUndefined => Ok empty_options
  | OptionsNull => Throw TypeError
  | OptionsObject o => Ok o
  end.

(** What a property read on the object literal [sensitivityLevels] gives:
    one of its own three numbers, something inherited from
    [Object.prototype], or [undefined]. *)
Inductive property : Type :=
| PNumber (x : number)
| PInherited
| PUndefined.

Definition Object_prototype_keys : list string :=
  [ "constructor"; "hasOwnProperty"; "isPrototypeOf"; "propertyIsEnumerable";
    "toLocaleString"; "toString"; "valueOf"; "__proto__";
    "__defineGetter__"; "__defineSetter__"; "__lookupGetter__";
    "__lookupSetter__" ]%string.

Definition inherited (key : string) : bool :=
  existsb (String.eqb key) Object_prototype_keys.

Definition sensitivityLevels (key : string) : property :=
  if String.eqb key "low" then PNumber lit_0_3
  else if String.eqb key "medium" then PNumber lit_0_7
  else if String.eqb key "high" then PNumber lit_1
  else if inherited key then PInherited
  else PUndefined.

Definition truthy (p : property) : bool :=
  match p with
  | PNumber NaN => false
  | PNumber (Finite m _) => negb (m =? 0)
  | PInherited => true
  | PUndefined => false
  end.

(** [a || b] *)
Definition or_else (a b : property) : property :=
  if truthy a then a else b.

(** [ToNumber]: a function or an object that is not a wrapper is [NaN]. *)
Definition ToNumber (p : property) : number :=
  match p with
  | PNumber x => x
  | _ => NaN
  end.

Definition maskRatio (sens : string) : property :=
  or_else (sensitivityLevels sens) (sensitivityLevels "medium").

Definition maskedPartLength (hidden : Z) (sens : string) : number :=
  Math_round (mul (of_Z hidden) (ToNumber (maskRatio sens))).

Definition mask (str : value) (opts : options_arg) : result string :=
  match str with
  | VString s =>
      let* o := destructure opts in
      let visibleStart := default 2 (visibleStart o) in
      let visibleEnd := default 2 (visibleEnd o) in
      let maskChar := default (Literal "*") (maskChar o) in
      let sensitivity := default "medium"%string (sensitivity o) in
      let strLength := Z.of_nat (String.length s) in
      if visibleStart + visibleEnd >=? strLength then Ok s
      else
        let maskedPartLength :=
          maskedPartLength (strLength - visibleStart - visibleEnd) sensitivity in
        let* maskedPart :=
          match maskChar with
          | Generator f => f maskedPartLength
          | Literal c => repeat c maskedPartLength
          end in
        Ok (String.append (substring s 0 visibleStart)
              (String.append maskedPart
                 (substring s (strLength - visibleEnd) strLength)))
  | _ => Ok EmptyString
  end.

(** [stringUtils.mask] of [index.js] is the same text as [mask] of
    [src/mask.js], line for line. *)
Module stringUtils.

Definition mask (str : value) (opts : options_arg) : result string :=
  match str with
  | VString s =>
      let* o := destructure opts in
      let visibleStart := default 2 (visibleStart o) in
      let visibleEnd := default 2 (visibleEnd o) in
      let maskChar := default (Literal "*") (maskChar o) in
      let sensitivity := default "medium"%string (sensitivity o) in
      let strLength := Z.of_nat (String.length s) in
      if visibleStart + visibleEnd >=? strLength then Ok s
      else
        let maskRatio :=
          or_else (sensitivityLevels sensitivity) (sensitivityLevels "medium") in
        let maskedPartLength :=
          Math_round
            (mul (of_Z (strLength - visibleStart - visibleEnd))
               (ToNumber maskRatio)) in
        let* maskedPart :=
          match maskChar with
          | Generator f => f maskedPartLength
          | Literal c => repeat c maskedPartLength
          end in
        Ok (String.append (substring s 0 visibleStart)
              (String.append maskedPart
                 (substring s (strLength - visibleEnd) strLength)))
  | _ => Ok EmptyString
  end.

End stringUtils.

(** ** The masking rule in the words of the specification

    Exact rational arithmetic: the table [{low: 0.3, medium: 0.7, high: 1.0}]
    with [medium] for every other key, and rounding with halves going up. *)
Module Spec.

Definition sensitivityRatio (key : string) : Q :=
  if String.eqb key "low" then (3 # 10)%Q
  else if String.eqb key "high" then (1 # 1)%Q
  else (7 # 10)%Q.

Definition round_half_up (q : Q) : Z := Qfloor (q + (1 # 2))%Q.

Definition maskedLength (hiddenSpan : Z) (key : string) : Z :=
  round_half_up (inject_Z hiddenSpan * sensitivityRatio key)%Q.

(** [s[a:b]]: the characters of [s] from index [a] up to index [b]. *)
Definition slice (s : string) (a b : Z) : string :=
  String.substring (Z.to_nat a) (Z.to_nat (b - a)) s.

Definition Mask (s : string) (visibleStart visibleEnd : Z) (maskChar : string)
    (key : string) : string :=
  let n := Z.of_nat (String.length s) in
  let hiddenSpan := n - visibleStart - visibleEnd in
  String.append (slice s 0 visibleStart)
    (String.append
       (repeat_string maskChar (Z.to_nat (maskedLength hiddenSpan key)))
       (slice s (n - visibleEnd) n)).

End Spec.

(** ** 32-bit integers *)

Definition ToInt32 (z : Z) : Z :=
  let r := z mod 2 ^ 32 in
  if r <? 2 ^ 31 then r else r - 2 ^ 32.

(** [s.charCodeAt(i)]; [None] is [NaN], past the end of the string. *)
Definition charCodeAt (s : string) (i : nat) : option Z :=
  match String.get i s with
  | Some c => Some (Z.of_N (N_of_ascii c))
  | None => None
  end.

(** [ToInt32] of a character code; [NaN] becomes 0. *)
Definition code_to_int32 (c : option Z) : Z :=
  match c with
  | Some z => ToInt32 z
  | None => 0
  end.

(** ** src/compare.js *)

(** The loop [for (let i = 0; i < str1.length; i++) result |= ...], entered
    at index [i] with [steps] iterations left. *)
Fixpoint compare_loop (str1 str2 : string) (i steps : nat) (result : Z) : Z :=
  match steps with
  | O => result
  | S steps' =>
      let x := Z.lxor (code_to_int32 (charCodeAt str1 i))
                      (code_to_int32 (charCodeAt str2 i)) in
      compare_loop str1 str2 (S i) steps' (Z.lor (ToInt32 result) x)
  end.

Definition compare (str1 str2 : value) : bool :=
  match str1, str2 with
  | VString s1, VString s2 =>
      if negb (Nat.eqb (String.length s1) (String.length s2)) then false
      else compare_loop s1 s2 0 (String.length s1) 0 =? 0
  | _, _ => false
  end.

(** ** src/bloomFilter.js *)

Module BloomFilter.

Record t : Type := {
  size : Z;
  bitArray : list value;
  hashFunctions : list Z
}.

(** [new Array(size).fill(0)]; [new Array] refuses a length that is not
    an unsigned 32-bit integer. *)
Definition constructor (size : option Z) (hashFunctions : option (list Z))
    : result t :=
  let size := default 100 size in
  let hashFunctions := default [] hashFunctions in
  if (size <? 0) || (2 ^ 32 <=? size) then Throw RangeError
  else Ok {| size := size;
             bitArray := replicate (Z.to_nat size) (VNumber 0);
             hashFunctions := hashFunctions |}.

(** The loop of [_hash], entered with the value [hash], an integer
    Number: [hash << 5] and [hash & hash] go through [ToInt32], the
    subtraction and the addition are binary64 operations, which round
    once the seed is large. *)
Fixpoint hash_loop (str : string) (hash : Z) : Z :=
  match str with
  | EmptyString => hash
  | String c str' =>
      let hash :=
        round_integer
          (round_integer (ToInt32 (ToInt32 hash * 2 ^ 5) - hash)
           + Z.of_N (N_of_ascii c)) in
      hash_loop str' (ToInt32 hash)
  end.

(** [Math.abs(hash) % this.size]; [None] is [NaN], when the size is 0. *)
Definition _hash (this : t) (str : string) (seed : Z) : option Z :=
  let hash := hash_loop str seed in
  if size this =? 0 then None else Some (Z.rem (Z.abs hash) (size this)).

(** [a[index] = v]: an index past the end extends the array with holes;
    the key [NaN] is not an element of the array. *)
Definition array_set (a : list value) (index : option Z) (v : value)
    : list value :=
  match index with
  | None => a
  | Some i =>
      let i := Z.to_nat i in
      if (i <? length a)%nat then <[i := v]> a
      else a ++ replicate (i - length a) VUndefined ++ [v]
  end.

(** [a[index] === 0]; the property [NaN] is [undefined] or 1, never 0. *)
Definition array_is_zero (a : list value) (index : option Z) : bool :=
  match index with
  | None => false
  | Some i =>
      match a !! Z.to_nat i with
      | Some (VNumber 0) => true
      | _ => false
      end
  end.

(** One turn of the loop of [add]. *)
Definition add_step (str : string) (this : t) (hashFunction : Z) : t :=
  let index := _hash this str hashFunction in
  {| size := size this;
     bitArray := array_set (bitArray this) index (VNumber 1);
     hashFunctions := hashFunctions this |}.

Definition add (this : t) (str : string) : t :=
  fold_left (add_step str) (hashFunctions this) this.

Fixpoint check_loop (this : t) (str : string) (seeds : list Z) : bool :=
  match seeds with
  | [] => true
  | hashFunction :: seeds' =>
      let index := _hash this str hashFunction in
      if array_is_zero (bitArray this) index then false
      else check_loop this str seeds'
  end.

Definition check (this : t) (str : string) : bool :=
  check_loop this str (hashFunctions this).

(** A bit is set at an index when the element there is 1; nothing is
    asked at the index [NaN]. *)
Definition set_at (a : list value) (index : option Z) : Prop :=
  match index with
  | None => True
  | Some i => a !! Z.to_nat i = Some (VNumber 1)
  end.

End BloomFilter.

(** ** Regular expressions

    [new RegExp(key, 'g')] and [String.prototype.replace] belong to the
    platform.  [redactFile] is embedded over an arbitrary engine
    (Section [Redact]); the engine below covers a fragment of the pattern
    language and serves to run [redactFile] on concrete rules. *)

Inductive piece : Type :=
| Kept (s : string)
| Matched (s : string).

Module RegExp.

Inductive regex : Type :=
| Empty
| Char (negated : bool) (ranges : list (N * N))
| Seq (r1 r2 : regex)
| Alt (r1 r2 : regex)
| Repeat (r : regex) (min : nat) (max : option nat)
| Bol
| Eol.

Definition in_ranges (ranges : list (N * N)) (c : ascii) : bool :=
  let n := N_of_ascii c in
  existsb (fun '(lo, hi) => (lo <=? n)%N && (n <=? hi)%N) ranges.

Definition char_matches (negated : bool) (ranges : list (N * N)) (c : ascii)
    : bool :=
  xorb negated (in_ranges ranges c).

(** Backtracking matcher: [k] is the rest of the pattern; the answer is
    the index at which the whole match ends.  Alternatives are tried
    left to right and repetitions are greedy; once [min] is reached an
    iteration that consumes nothing is refused. *)
Fixpoint exec (r : regex) (pos : nat) (s : list ascii)
    (k : nat -> list ascii -> option nat) : option nat :=
  match r with
  | Empty => k pos s
  | Char negated ranges =>
      match s with
      | c :: s' => if char_matches negated ranges c then k (S pos) s' else None
      | [] => None
      end
  | Seq r1 r2 => exec r1 pos s (fun pos' s' => exec r2 pos' s' k)
  | Alt r1 r2 =>
      match exec r1 pos s k with
      | Some e => Some e
      | None => exec r2 pos s k
      end
  | Repeat r1 min max =>
      (fix rep (fuel min : nat) (max : option nat) (pos : nat) (s : list ascii)
         {struct fuel} : option nat :=
         match fuel with
         | O => None
         | S fuel' =>
             let again :=
               match max with
               | Some O => None
               | _ =>
                   exec r1 pos s
                     (fun pos' s' =>
                        if Nat.eqb min 0 && Nat.eqb pos' pos then None
                        else rep fuel' (Nat.pred min) (option_map Nat.pred max) pos' s')
               end in
             if Nat.eqb min 0 then
               match again with
               | Some e => Some e
               | None => k pos s
               end
             else again
         end) (S (min + length s)) min max pos s
  | Bol => if Nat.eqb pos 0 then k pos s else None
  | Eol => match s with [] => k pos s | _ => None end
  end.

(** *** Parsing a pattern *)

Definition digit_value (c : ascii) : option nat :=
  let n := nat_of_ascii c in
  if (48 <=? n)%nat && (n <=? 57)%nat then Some (n - 48)%nat else None.

Definition digits : list (N * N) := [(48, 57)]%N.
Definition word : list (N * N) := [(48, 57); (65, 90); (95, 95); (97, 122)]%N.
Definition space : list (N * N) := [(9, 13); (32, 32); (160, 160)]%N.

Definition single (c : ascii) : list (N * N) :=
  [(N_of_ascii c, N_of_ascii c)].

(** Characters that stand for themselves after a backslash. *)
Definition is_syntax_char (c : ascii) : bool :=
  existsb (Ascii.eqb c)
    (list_ascii_of_string "^$\.*+?()[]{}|/-").

(** A backslash escape outside a class; [None] when the escape is not
    in the fragment. *)
Definition parse_escape (c : ascii) : option regex :=
  if Ascii.eqb c "d" then Some (Char false digits)
  else if Ascii.eqb c "D" then Some (Char true digits)
  else if Ascii.eqb c "w" then Some (Char false word)
  else if Ascii.eqb c "W" then Some (Char true word)
  else if Ascii.eqb c "s" then Some (Char false space)
  else if Ascii.eqb c "S" then Some (Char true space)
  else if Ascii.eqb c "t" then Some (Char false [(9, 9)]%N)
  else if Ascii.eqb c "n" then Some (Char false [(10, 10)]%N)
  else if Ascii.eqb c "r" then Some (Char false [(13, 13)]%N)
  else if is_syntax_char c then Some (Char false (single c))
  else None.

(** The members of a class [[...]], after the optional [^]; the answer
    is the ranges and what follows the closing bracket. *)
Fixpoint parse_class (s : list ascii) (acc : list (N * N))
    : option (list (N * N) * list ascii) :=
  match s with
  | [] => None
  | c :: s1 =>
      if Ascii.eqb c "]" then Some (acc, s1)
      else if Ascii.eqb c "\" then
        match s1 with
        | e :: s2 =>
            if Ascii.eqb e "d" then parse_class s2 (acc ++ digits)
            else if Ascii.eqb e "w" then parse_class s2 (acc ++ word)
            else if Ascii.eqb e "s" then parse_class s2 (acc ++ space)
            else if is_syntax_char e then parse_class s2 (acc ++ single e)
            else None
        | [] => None
        end
      else
        match s1 with
        | dash :: hi :: s3 =>
            if Ascii.eqb dash "-" && negb (Ascii.eqb hi "]") then
              if Ascii.eqb hi "\" then None
              else if (N_of_ascii c <=? N_of_ascii hi)%N
              then parse_class s3 (acc ++ [(N_of_ascii c, N_of_ascii hi)])
              else None
            else parse_class s1 (acc ++ single c)
        | _ => parse_class s1 (acc ++ single c)
        end
  end.

Fixpoint parse_number (s : list ascii) (acc : option nat)
    : option nat * list ascii :=
  match s with
  | c :: s' =>
      match digit_value c with
      | Some d => parse_number s' (Some (10 * default 0 acc + d)%nat)
      | None => (acc, s)
      end
  | [] => (acc, s)
  end.

(** A quantifier in braces, after the opening brace; [None] when the
    braces do not hold a quantifier (the brace is then a literal). *)
Definition parse_braces (s : list ascii)
    : option (nat * option nat * list ascii) :=
  match parse_number s None with
  | (Some lo, "}"%char :: s') => Some (lo, Some lo, s')
  | (Some lo, ","%char :: s') =>
      match parse_number s' None with
      | (None, "}"%char :: s'') => Some (lo, None, s'')
      | (Some hi, "}"%char :: s'') => Some (lo, Some hi, s'')
      | _ => None
      end
  | _ => None
  end.

(** The quantifier that may follow an atom. *)
Definition parse_quantifier (atom : regex) (s : list ascii)
    : option (regex * list ascii) :=
  match s with
  | "*"%char :: s' => Some (Repeat atom 0 None, s')
  | "+"%char :: s' => Some (Repeat atom 1 None, s')
  | "?"%char :: s' => Some (Repeat atom 0 (Some 1%nat), s')
  | "{"%char :: s' =>
      match parse_braces s' with
      | Some (lo, Some hi, s'') =>
          if (hi <? lo)%nat then None else Some (Repeat atom lo (Some hi), s'')
      | Some (lo, None, s'') => Some (Repeat atom lo None, s'')
      | None => Some (atom, s)
      end
  | _ => Some (atom, s)
  end.

Definition starts_quantifier (s : list ascii) : bool :=
  match s with
  | "*"%char :: _ | "+"%char :: _ | "?"%char :: _ => true
  | "{"%char :: s' => match parse_braces s' with Some _ => true | None => false end
  | _ => false
  end.

(** Disjunction, then sequence, then atom; [parse_seq] stops before [|]
    and [)]. *)
Fixpoint parse_alt (fuel : nat) (s : list ascii) {struct fuel}
    : option (regex * list ascii) :=
  match fuel with
  | O => None
  | S fuel' =>
      match parse_seq fuel' s with
      | Some (r1, "|"%char :: s') =>
          match parse_alt fuel' s' with
          | Some (r2, s'') => Some (Alt r1 r2, s'')
          | None => None
          end
      | other => other
      end
  end
with parse_seq (fuel : nat) (s : list ascii) {struct fuel}
    : option (regex * list ascii) :=
  match fuel with
  | O => None
  | S fuel' =>
      match s with
      | [] | "|"%char :: _ | ")"%char :: _ => Some (Empty, s)
      | _ =>
          match parse_atom fuel' s with
          | Some (a, s') =>
              match parse_quantifier a s' with
              | Some (q, s'') =>
                  if starts_quantifier s'' then None
                  else
                    match parse_seq fuel' s'' with
                    | Some (rest, s3) => Some (Seq q rest, s3)
                    | None => None
                    end
              | None => None
              end
          | None => None
          end
      end
  end
with parse_atom (fuel : nat) (s : list ascii) {struct fuel}
    : option (regex * list ascii) :=
  match fuel with
  | O => None
  | S fuel' =>
      match s with
      | [] => None
      | "("%char :: s' =>
          let body :=
            match s' with
            | "?"%char :: ":"%char :: s'' => Some s''
            | "?"%char :: _ => None
            | _ => Some s'
            end in
          match body with
          | Some b =>
              match parse_alt fuel' b with
              | Some (r, ")"%char :: rest) => Some (r, rest)
              | _ => None
              end
          | None => None
          end
      | "["%char :: "^"%char :: s' =>
          match parse_class s' [] with
          | Some (ranges, rest) => Some (Char true ranges, rest)
          | None => None
          end
      | "["%char :: s' =>
          match parse_class s' [] with
          | Some (ranges, rest) => Some (Char false ranges, rest)
          | None => None
          end
      | "\"%char :: c :: s' =>
          match parse_escape c with
          | Some r => Some (r, s')
          | None => None
          end
      | "\"%char :: [] => None
      | "."%char :: s' => Some (Char true [(10, 10); (13, 13)]%N, s')
      | "^"%char :: s' => if starts_quantifier s' then None else Some (Bol, s')
      | "$"%char :: s' => if starts_quantifier s' then None else Some (Eol, s')
      | "*"%char :: _ | "+"%char :: _ | "?"%char :: _ => None
      | c :: s' =>
          if starts_quantifier s then None else Some (Char false (single c), s')
      end
  end.

(** [new RegExp(key, 'g')] on the fragment: literals, [.], [^], [$],
    the escapes of [parse_escape], classes, groups, [|], and the greedy
    quantifiers; [^] and [$] take no quantifier.  A pattern outside the
    fragment (a word boundary, a lazy quantifier, a lookahead, a
    backreference and the like) is refused like a malformed one;
    nothing is claimed about such patterns, and the theorems that run
    this engine run it on patterns of the fragment. *)
Definition compile (key : string) : result regex :=
  let s := list_ascii_of_string key in
  match parse_alt (4 + 3 * length s) s with
  | Some (r, []) => Ok r
  | _ => Throw SyntaxError
  end.

(** The matches of a global regular expression, left to right, with the
    text between them; after an empty match the scan moves on by one
    character. *)
Fixpoint scan_from (fuel : nat) (r : regex) (pos : nat) (s : list ascii)
    : list piece :=
  match fuel with
  | O => []
  | S fuel' =>
      let step :=
        match s with
        | [] => []
        | c :: s' => Kept (String c EmptyString) :: scan_from fuel' r (S pos) s'
        end in
      match exec r pos s (fun e _ => Some e) with
      | Some e =>
          let len := (e - pos)%nat in
          if Nat.eqb len 0 then Matched EmptyString :: step
          else Matched (string_of_list_ascii (firstn len s))
                 :: scan_from fuel' r e (skipn len s)
      | None => step
      end
  end.

Definition scan (r : regex) (s : string) : list piece :=
  let l := list_ascii_of_string s in
  scan_from (S (length l)) r 0 l.

End RegExp.

(** ** cli.js: redactFile *)

Section Redact.

(** The engine: compiling a pattern, which may throw, and finding the
    matches of a compiled pattern in a text. *)
Variable R : Type.
Variable RegExp_new : string -> result R.
Variable matches : R -> string -> list piece.

(** What the identifier [mask] stands for in [cli.js]. *)
Variable mask : value -> options_arg -> result string.

(** [text.replace(regex, callback)]: each match is replaced by what the
    callback returns for it; an exception of the callback ends the
    replacement. *)
Fixpoint replace_pieces (ps : list piece) (callback : string -> result string)
    : result string :=
  match ps with
  | [] => Ok EmptyString
  | Kept s :: ps' =>
      let* rest := replace_pieces ps' callback in
      Ok (String.append s rest)
  | Matched m :: ps' =>
      let* m' := callback m in
      let* rest := replace_pieces ps' callback in
      Ok (String.append m' rest)
  end.

Definition replace (text : string) (regex : R)
    (callback : string -> result string) : result string :=
  replace_pieces (matches regex text) callback.

(** One turn of the loop over [Object.entries(rules)]: the [try] block
    and its [catch], which reports the rule on [console.error] and goes
    on.  The state is the text and the keys reported so far. *)
Definition apply_rule (state : string * list string)
    (entry : string * options_arg) : string * list string :=
  let '(redactedData, errors) := state in
  let '(key, rule) := entry in
  match (let* regex := RegExp_new key in
         replace redactedData regex (fun m => mask (VString m) rule)) with
  | Ok replaced => (replaced, errors)
  | Throw _ => (redactedData, errors ++ [key])
  end.

(** The loop of [redactFile] over the rules, in the order of
    [Object.entries]. *)
Definition redact (rules : list (string * options_arg)) (data : string)
    : string * list string :=
  fold_left apply_rule rules (data, []).

(** [redactFile]: [files] maps a path to its content; a file that
    cannot be read is reported and nothing is written. *)
Definition redactFile (files : string -> option string) (filePath : string)
    (rules : list (string * options_arg)) (outputPath : string)
    : string -> option string :=
  match files filePath with
  | None => files
  | Some data =>
      let redactedData := fst (redact rules data) in
      fun path => if String.eqb path outputPath then Some redactedData
                  else files path
  end.

End Redact.

(** [redactFile] on the engine above, with [mask] of [src/mask.js] for the
    identifier [mask]. *)
Definition redact_text (rules : list (string * options_arg)) (data : string)
    : string :=
  fst (redact RegExp.regex RegExp.compile RegExp.scan mask rules data).

(** [cli.js] requires only [crypto] and [fs]: as the file stands the
    identifier [mask] is not bound, and calling it throws. *)
Definition unbound_mask (str : value) (opts : options_arg) : result string :=
  Throw ReferenceError.

Definition redact_text_unbound (rules : list (string * options_arg))
    (data : string) : string :=
  fst (redact RegExp.regex RegExp.compile RegExp.scan unbound_mask rules data).

(** ** bloomFilter.js: the state of a filter

    What the constructor establishes for a size of at least 1 and what
    [add] keeps, and the element that a string and a seed select. *)

Module BloomFilterInv.
Import BloomFilter.

Definition is_bit (v : value) : bool :=
  match v with
  | VNumber 0 | VNumber 1 => true
  | _ => false
  end.

(** As many elements as the size says, each of them 0 or 1. *)
Definition well_formed (this : t) : Prop :=
  1 <= size this /\
  length (bitArray this) = Z.to_nat (size this) /\
  forallb is_bit (bitArray this) = true.

(** The element that [add] and [check] visit for a string and a seed. *)
Definition slot (this : t) (str : string) (seed : Z) : nat :=
  Z.to_nat (Z.rem (Z.abs (hash_loop str seed)) (size this)).

Definition hits (this : t) (str : string) (j : nat) : Prop :=
  exists seed : Z, In seed (hashFunctions this) /\ slot this str seed = j.

(** The polynomial of base 31 over the character codes, started at [h],
    without any reduction. *)
Fixpoint horner31 (str : string) (h : Z) : Z :=
  match str with
  | EmptyString => h
  | String c str' => horner31 str' (31 * h + Z.of_N (N_of_ascii c))
  end.

End BloomFilterInv.

(** ** cli.js: the pieces of a replacement *)

(** The text that a list of pieces spells. *)
Fixpoint pieces_text (ps : list piece) : string :=
  match ps with
  | [] => EmptyString
  | Kept s :: ps' => String.append s (pieces_text ps')
  | Matched m :: ps' => String.append m (pieces_text ps')
  end.

Definition is_match (p : piece) : bool :=
  match p with
  | Matched _ => true
  | Kept _ => false
  end.

(** ** index.js and hash.js: hash and compare

    [crypto.createHash] belongs to the platform: [Digest algorithm data
    encoding] is what [digest(encoding)] returns after the calls of
    [update] listed in [data], in the order they were made. *)

(** One call of [update]: a string with the encoding ['utf8'], or a
    [Buffer]. *)
Inductive chunk : Type :=
| Utf8 (s : string)
| Bytes (b : list N).

(** The values of the option [salt]: a string, a [Buffer], or a value of
    another type, of which only the truthiness matters. *)
Inductive salt_value : Type :=
| SaltString (s : string)
| SaltBuffer (b : list N)
| SaltOther (truthy : bool).

Record hash_options : Type := {
  algorithm : option string;
  encoding : option string;
  rounds : option Z;
  salt : option salt_value
}.

Definition no_hash_options : hash_options :=
  {| algorithm := None; encoding := None; rounds := None; salt := None |}.

Inductive hash_options_arg : Type :=
| HashOptionsUndefined
| HashOptionsNull
| HashOptionsObject (o : hash_options).

Definition destructure_hash (a : hash_options_arg) : result hash_options :=
  match a with
  | HashOptionsUndefined => Ok no_hash_options
  | HashOptionsNull => Throw TypeError
  | HashOptionsObject o => Ok o
  end.

(** [if (salt)]: an absent salt, the empty string and the other falsy
    values do not count. *)
Definition salt_truthy (s : option salt_value) : bool :=
  match s with
  | None => false
  | Some (SaltString t) => negb (String.eqb t EmptyString)
  | Some (SaltBuffer _) => true
  | Some (SaltOther truthy) => truthy
  end.

(** [_validateSalt] *)
Definition _validateSalt (s : salt_value) : result unit :=
  match s with
  | SaltString _ | SaltBuffer _ => Ok tt
  | SaltOther _ => Throw TypeError
  end.

Definition salt_chunk (s : salt_value) : list chunk :=
  match s with
  | SaltString t => [Utf8 t]
  | SaltBuffer b => [Bytes b]
  | SaltOther _ => []
  end.

(** [['sha256', 'sha512'].includes(algorithm)] *)
Definition sha_algorithm (name : string) : bool :=
  String.eqb name "sha256" || String.eqb name "sha512".

Section Hash.

Variable Digest : string -> list chunk -> string -> string.

(** The branch of [hash] for the two SHA algorithms, the same text in
    [stringUtils.hash] and in [hashUtils.hash]. *)
Definition sha_digest (str : string) (algorithm encoding : string)
    (salt : option salt_value) : result string :=
  let* salted :=
    if salt_truthy salt then
      match salt with
      | Some s => let* _ := _validateSalt s in Ok (salt_chunk s)
      | None => Ok []
      end
    else Ok [] in
  Ok (Digest algorithm (salted ++ [Utf8 str]) encoding).

(** [stringUtils.hash] *)
Definition hash (str : value) (options : hash_options_arg) : result string :=
  match str with
  | VString s =>
      let* o := destructure_hash options in
      let algorithm := default "sha256"%string (algorithm o) in
      let encoding := default "hex"%string (encoding o) in
      if sha_algorithm algorithm then sha_digest s algorithm encoding (salt o)
      else Throw TypeError
  | _ => Throw TypeError
  end.

(** [stringUtils.compare]; [compare] is the function of [compare.js]. *)
Definition stringUtils_compare (str hash_ : value) (algorithm : option string)
    : result bool :=
  match str, hash_ with
  | VString s, VString h =>
      let algorithm := default "sha256"%string algorithm in
      if sha_algorithm algorithm then
        let* hashedStr :=
          hash (VString s)
            (HashOptionsObject {| algorithm := Some algorithm; encoding := None;
                                  rounds := None; salt := None |}) in
        Ok (String.eqb hashedStr h)
      else Throw TypeError
  | _, _ => Throw TypeError
  end.

(** [hashUtils.hash] of [hash.js]: the file requires only [crypto], so
    the identifier [bcrypt] is not bound and the call of
    [bcrypt.hashSync] throws. *)
Definition hashUtils_hash (str : value) (options : hash_options_arg)
    : result string :=
  match str with
  | VString s =>
      let* o := destructure_hash options in
      let algorithm := default "sha256"%string (algorithm o) in
      let encoding := default "hex"%string (encoding o) in
      if String.eqb algorithm "bcrypt" then
        if negb (salt_truthy (salt o)) then Throw TypeError
        else Throw ReferenceError
      else if sha_algorithm algorithm then sha_digest s algorithm encoding (salt o)
      else Throw TypeError
  | _ => Throw TypeError
  end.

End Hash.

(** ** random.js

    [crypto.randomInt] belongs to the platform: [randomInt i max] is what
    the call of iteration [i] returns for a bound [max] above 0.  The
    length is a [value]: of the numbers, the integers. *)









Section Random.

Variable randomInt : nat -> Z -> Z.




End Random.


(** ** cli.js: the command [mask]

    [cli_options] is the object [options] of the main program: the pairs
    in the order of assignment, the latest first, so that [get_option]
    reads the value assigned last.  The handler reads no key that
    [Object.prototype] defines. *)

(** [args[i + 1] || true] *)
Inductive cli_value : Type :=
| CliString (s : string)
| CliTrue.

Definition cli_options : Type := list (string * cli_value).

Definition get_option (options : cli_options) (key : string) : option cli_value :=
  match find (fun kv => String.eqb (fst kv) key) options with
  | Some kv => Some (snd kv)
  | None => None
  end.

(** [args[i].startsWith('-')] *)
Definition startsWith_dash (s : string) : bool :=
  match s with
  | String "-"%char _ => true
  | _ => false
  end.

(** [args[i].replace(/^--?/, '')] *)
Definition optionName (s : string) : string :=
  match s with
  | String "-"%char (String "-"%char rest) => rest
  | String "-"%char rest => rest
  | _ => s
  end.

Definition option_value (next : option string) : cli_value :=
  match next with
  | Some v => if String.eqb v EmptyString then CliTrue else CliString v
  | None => CliTrue
  end.

(** The loop of the main program over [args]: an argument that starts
    with a dash takes the next one as its value, whatever it is. *)
Fixpoint parse_options (args : list string) (options : cli_options) : cli_options :=
  match args with
  | [] => options
  | a :: rest =>
      if startsWith_dash a then
        match rest with
        | [] => (optionName a, option_value None) :: options
        | v :: rest' =>
            parse_options rest' ((optionName a, option_value (Some v)) :: options)
        end
      else parse_options rest options
  end.

(** What a handler writes: a line on [console.log], a line on
    [console.error], or the message of a caught exception on
    [console.error]. *)
Inductive output : Type :=
| Log (s : string)
| Error (s : string)
| ErrorMessage (e : error).

Section Cli.

(** [parseInt(v, 10)] of the platform, for the value of an option or
    [undefined]. *)
Variable parseInt : option cli_value -> number.

(** What the identifier [mask] stands for in the handler. *)
Variable callee : string -> number -> number -> cli_value -> result string.

(** [x || d] for a number [x] *)
Definition number_or (x : number) (d : Z) : number :=
  if truthy (PNumber x) then x else of_Z d.

Definition mask_handler (args : list string) (options : cli_options) : output :=
  let visibleStart := number_or (parseInt (get_option options "visibleStart")) 2 in
  let visibleEnd := number_or (parseInt (get_option options "visibleEnd")) 2 in
  let sensitivity := default (CliString "medium") (get_option options "sensitivity") in
  match args with
  | [] => Error "Error: Please provide a string to mask."
  | a :: _ =>
      if String.eqb a EmptyString then Error "Error: Please provide a string to mask."
      else match callee a visibleStart visibleEnd sensitivity with
           | Ok masked => Log (String.append "Masked string: " masked)
           | Throw e => ErrorMessage e
           end
  end.

(** The main program for [process.argv.slice(2) = "mask" :: args]. *)
Definition run_mask (args : list string) : output :=
  mask_handler args (parse_options args []).

End Cli.

(** [cli.js] requires only [crypto] and [fs]: the identifier [mask] is
    not bound in the handler either. *)
Definition unbound_callee (_ : string) (_ _ : number) (_ : cli_value)
    : result string :=
  Throw ReferenceError.

(** ** Inputs of the examples *)

Definition options_3_3 : options :=
  {| visibleStart := Some 3; visibleEnd := Some 3;
     maskChar := None; sensitivity := None |}.

Definition card_number : string := "1234-5678-9012-3456".

Definition card_pattern : string := "\d{4}-\d{4}-\d{4}-\d{4}".
Definition email_pattern : string :=
  "[a-zA-Z0-9._%+-]+@[a-zA-Z0-9.-]+\.[a-zA-Z]{2,}".
Definition card_rule : options_arg :=
  OptionsObject {| visibleStart := Some 4; visibleEnd := Some 4;
                   maskChar := None; sensitivity := None |}.
Definition email_rule : options_arg :=
  OptionsObject {| visibleStart := None; visibleEnd := None;
                   maskChar := None; sensitivity := Some "high"%string |}.
Definition sample_text : string :=
  "My credit card is 1234-5678-9012-3456 and my email is test@example.com".

Definition fruit_filter : BloomFilter.t :=
  {| BloomFilter.size := 100;
     BloomFilter.bitArray := replicate 100 (VNumber 0);
     BloomFilter.hashFunctions := [1; 7] |}.

Definition default_filter : BloomFilter.t :=
  {| BloomFilter.size := 100;
     BloomFilter.bitArray := replicate 100 (VNumber 0);
     BloomFilter.hashFunctions := [] |}.

Definition high_options : options :=
  {| visibleStart := Some 4; visibleEnd := Some 3;
     maskChar := Some (Literal "#"); sensitivity := Some "high"%string |}.

Definition low_options : options :=
  {| visibleStart := Some 1; visibleEnd := Some 4;
     maskChar := Some (Literal "x"); sensitivity := Some "low"%string |}.

Definition constructor_options : options :=
  {| visibleStart := None; visibleEnd := None; maskChar := None;
     sensitivity := Some "constructor"%string |}.

Definition string49 : string :=
  "0123456789012345678901234567890123456789012345678".

Definition card_regex : RegExp.regex :=
  Eval vm_compute in
    match RegExp.compile card_pattern with
    | Ok r => r
    | Throw _ => RegExp.Empty
    end.

Definition empty_filter : BloomFilter.t :=
  {| BloomFilter.size := 0;
     BloomFilter.bitArray := [];
     BloomFilter.hashFunctions := [1; 7] |}.

Definition star_options : options :=
  {| visibleStart := Some 1; visibleEnd := Some 4;
     maskChar := Some (Literal "*"); sensitivity := Some "toString"%string |}.

(** A digest for the examples: the name of the algorithm and the bytes
    of the updates, read as one stream. *)
Fixpoint stream_text (data : list chunk) : string :=
  match data with
  | [] => EmptyString
  | Utf8 s :: data' => String.append s (stream_text data')
  | Bytes b :: data' =>
      String.append (string_of_list_ascii (map ascii_of_N b)) (stream_text data')
  end.

Definition stream_digest (algorithm : string) (data : list chunk)
    (encoding : string) : string :=
  String.append algorithm (String.append ":" (stream_text data)).


(** A [parseInt] for the examples: the decimal digits at the start of
    the string, without a sign or white space. *)
Fixpoint leading_digits (s : string) (acc : option Z) : option Z :=
  match s with
  | EmptyString => acc
  | String c s' =>
      let n := Z.of_N (N_of_ascii c) in
      if (48 <=? n) && (n <=? 57)
      then leading_digits s' (Some (10 * default 0 acc + (n - 48)))
      else acc
  end.

Definition parseInt_digits (v : option cli_value) : number :=
  match v with
  | Some (CliString s) =>
      match leading_digits s None with
      | Some z => of_Z z
      | None => NaN
      end
  | _ => NaN
  end.

(** * Properties *)

(** ** Masking: the two early returns *)

Lemma stringUtils_mask_eq (v : value) (a : options_arg) :
  stringUtils.mask v a = mask v a.
Proof. reflexivity. Qed.

(** C7.  A first argument that is not a string gives the empty string,
    whatever the second argument is (even [null], which a string input
    would fail to destructure): the test on [typeof str] comes before
    anything that can throw.  The same holds for [stringUtils.mask]. *)
Theorem mask_non_string (v : value) (a : options_arg) :
  is_string v = false ->
  mask v a = Ok EmptyString /\ stringUtils.mask v a = Ok EmptyString.
Proof.
  intros Hv.
  destruct v; simpl in Hv; try discriminate; split; reflexivity.
Qed.

Lemma mask_non_string_witness :
  is_string (VNumber 123) = false /\
  (mask (VNumber 123) OptionsNull = Ok EmptyString /\
   stringUtils.mask (VNumber 123) OptionsNull = Ok EmptyString).
Proof.
  split; [reflexivity | apply (mask_non_string (VNumber 123) OptionsNull); reflexivity].
Defined.

(** C3.  When [visibleStart + visibleEnd] reaches the length of the
    string, [mask] returns the string itself, as a value and not as an
    exception; [o] is the options object, or [{}] when none is passed.
    The same holds for [stringUtils.mask]. *)
Theorem mask_short_circuit (s : string) (a : options_arg) (o : options) :
  destructure a = Ok o ->
  start_of o + end_of o >= Z.of_nat (String.length s) ->
  mask (VString s) a = Ok s /\ stringUtils.mask (VString s) a = Ok s.
Proof.
  intros Ha Hge. change (stringUtils.mask (VString s) a) with (mask (VString s) a).
  unfold mask. rewrite Ha. cbn [bind]. cbv zeta.
  change (default 2 (visibleStart o)) with (start_of o).
  change (default 2 (visibleEnd o)) with (end_of o).
  destruct (Z.geb_spec (start_of o + end_of o) (Z.of_nat (String.length s)))
    as [_ | Hlt]; [split; reflexivity | lia].
Qed.

Lemma mask_short_circuit_witness :
  destructure (OptionsObject options_3_3) = Ok options_3_3 /\
  start_of options_3_3 + end_of options_3_3 >= Z.of_nat (String.length "short") /\
  mask (VString "short") (OptionsObject options_3_3) = Ok "short"%string /\
  stringUtils.mask (VString "short") (OptionsObject options_3_3)
    = Ok "short"%string.
Proof.
  split; [reflexivity |]. split; [vm_compute; discriminate |].
  apply (mask_short_circuit "short" (OptionsObject options_3_3) options_3_3);
    [reflexivity | vm_compute; discriminate].
Defined.

(** ** Masking: the default example *)

(** C5.  With no options, ["1234-5678-9012-3456"] (19 characters, hidden
    span 15) becomes 2 visible characters, 11 asterisks and 2 visible
    characters, 15 characters in all: the binary64 product [15 * 0.7] is
    exactly 10.5, which [Math.round] takes to 11. *)
Theorem mask_default_example :
  mask (VString card_number) OptionsUndefined
    = Ok (String.append "12" (String.append (repeat_string "*" 11) "56")) /\
  mask (VString card_number) (OptionsObject empty_options)
    = Ok "12***********56"%string /\
  String.length "12***********56" = 15%nat /\
  Z.of_nat (String.length card_number) - 2 - 2 = 15 /\
  mul (of_Z 15) lit_0_7 = Finite 5910974510923776 (-49) /\
  Number.eqb (mul_ieee (of_Z 15) lit_0_7) (Finite 21 (-1)) = true /\
  maskedPartLength 15 "medium" = Finite 11 0 /\
  Spec.maskedLength 15 "medium" = 11.
Proof. vm_compute. repeat split; reflexivity. Qed.

(** ** Redaction *)

Section RedactFacts.

Variable R : Type.
Variable RegExp_new : string -> result R.
Variable matches : R -> string -> list piece.
Variable callee : value -> options_arg -> result string.

Local Abbreviation step := (apply_rule R RegExp_new matches callee).
Local Abbreviation run := (redact R RegExp_new matches callee).

Lemma apply_rule_text (text : string) (errors errors' : list string)
    (entry : string * options_arg) :
  fst (step (text, errors) entry) = fst (step (text, errors') entry).
Proof.
  destruct entry as [key rule]. unfold apply_rule.
  destruct (let* regex := RegExp_new key in _); reflexivity.
Qed.

(** The text after a run of rules does not depend on what was reported
    before. *)
Lemma fold_rules_text (rules : list (string * options_arg)) :
  forall (text : string) (errors errors' : list string),
    fst (fold_left step rules (text, errors))
    = fst (fold_left step rules (text, errors')).
Proof.
  induction rules as [| entry rules IH]; intros text errors errors'.
  - reflexivity.
  - cbn [fold_left].
    pose proof (apply_rule_text text errors errors' entry) as Hfst.
    destruct (step (text, errors) entry) as [t1 e1].
    destruct (step (text, errors') entry) as [t2 e2].
    cbn [fst] in Hfst. subst t2. apply IH.
Qed.

(** A rule whose pattern does not compile leaves the text as it is and
    reports its key. *)
Lemma apply_rule_invalid (text : string) (errors : list string)
    (key : string) (rule : options_arg) (e : error) :
  RegExp_new key = Throw e ->
  step (text, errors) (key, rule) = (text, errors ++ [key]).
Proof.
  intros Hkey. unfold apply_rule. rewrite Hkey. reflexivity.
Qed.

(** The keys reported are never withdrawn. *)
Lemma fold_rules_errors (rules : list (string * options_arg)) :
  forall (state : string * list string) (key : string),
    In key (snd state) -> In key (snd (fold_left step rules state)).
Proof.
  induction rules as [| [k rule] rules IH]; intros [text errors] key Hin.
  - exact Hin.
  - cbn [fold_left]. apply IH. unfold apply_rule.
    destruct (let* regex := RegExp_new k in _); cbn [snd]; [exact Hin |].
    apply in_or_app. left. exact Hin.
Qed.

Lemma redact_invalid_pattern (rules1 rules2 : list (string * options_arg))
    (key : string) (rule : options_arg) (data : string) (e : error) :
  RegExp_new key = Throw e ->
  fst (run (rules1 ++ (key, rule) :: rules2) data)
    = fst (run (rules1 ++ rules2) data)
  /\ In key (snd (run (rules1 ++ (key, rule) :: rules2) data)).
Proof.
  intros Hkey. unfold redact.
  rewrite !fold_left_app. cbn [fold_left].
  destruct (fold_left step rules1 (data, [])) as [text errors].
  rewrite (apply_rule_invalid text errors key rule e Hkey). split.
  - apply fold_rules_text.
  - apply fold_rules_errors. cbn [snd]. apply in_or_app. right. left. reflexivity.
Qed.

(** With no rule the text is returned as it is. *)
Lemma redact_no_rule (data : string) : run [] data = (data, []).
Proof. reflexivity. Qed.

End RedactFacts.

(** C2.  What [redactFile] computes for the text and the two rules of the
    example, with [mask] of [src/mask.js] as the callback: the card match
    (19 characters, 4 and 4 visible, hidden span 11, ratio 0.7) becomes
    4 + 8 + 4 characters, and the email match (16 characters, the default
    2 and 2 visible, ratio 1) becomes 2 + 12 + 2 characters.  This is not
    the text the example expects; neither is the text left unchanged,
    which is what [cli.js] writes as it stands, [mask] being unbound
    there. *)
Theorem redact_example_actual :
  redact_text [(card_pattern, card_rule); (email_pattern, email_rule)] sample_text
    = "My credit card is 1234********3456 and my email is te************om"%string
  /\ redact_text [(card_pattern, card_rule); (email_pattern, email_rule)] sample_text
    <> "My credit card is 1234-****-****-3456 and my email is ****************"%string
  /\ mask (VString "1234-5678-9012-3456") card_rule = Ok "1234********3456"%string
  /\ mask (VString "test@example.com") email_rule = Ok "te************om"%string
  /\ redact_text_unbound [(card_pattern, card_rule); (email_pattern, email_rule)]
       sample_text = sample_text.
Proof.
  assert (Hrun :
    redact_text [(card_pattern, card_rule); (email_pattern, email_rule)] sample_text
    = "My credit card is 1234********3456 and my email is te************om"%string)
    by (vm_compute; reflexivity).
  split; [exact Hrun |]. split; [rewrite Hrun; discriminate |].
  repeat split; vm_compute; reflexivity.
Qed.

(** C6.  [redactFile] as [cli.js] stands, on the malformed pattern
    ["("] ahead of the card pattern.  The malformed rule is reported and
    the loop goes on to the card rule; but the identifier [mask] is not
    bound in [cli.js], so the callback throws at the card number, the
    [catch] reports that rule as well and the text is written as it was
    read: the masking of the valid pattern is not applied.  With [mask]
    of [src/mask.js] bound, the same run masks the card number and
    reports the malformed rule only.  That a rule whose pattern does not
    compile leaves the text to the other rules holds for every engine
    and every callee ([redact_invalid_pattern]). *)
Theorem redact_invalid_and_valid_actual :
  RegExp.compile "(" = Throw SyntaxError
  /\ redact RegExp.regex RegExp.compile RegExp.scan unbound_mask
       [("("%string, email_rule); (card_pattern, card_rule)] sample_text
     = (sample_text, ["("%string; card_pattern])
  /\ redact RegExp.regex RegExp.compile RegExp.scan mask
       [("("%string, email_rule); (card_pattern, card_rule)] sample_text
     = ("My credit card is 1234********3456 and my email is test@example.com"%string,
        ["("%string])
  /\ redact_text_unbound [("("%string, email_rule); (card_pattern, card_rule)]
       sample_text
     <> redact_text [("("%string, email_rule); (card_pattern, card_rule)] sample_text.
Proof.
  split; [vm_compute; reflexivity |].
  split; [vm_compute; reflexivity |].
  split; [vm_compute; reflexivity |].
  vm_compute. discriminate.
Qed.

(** ** Bloom filter *)

Module BloomFilterFacts.
Import BloomFilter.

Lemma array_set_lookup (a : list value) (i : Z) (v : value) :
  array_set a (Some i) v !! Z.to_nat i = Some v.
Proof.
  unfold array_set. destruct (Nat.ltb_spec (Z.to_nat i) (length a)) as [Hlt | Hge].
  - apply list_lookup_insert_eq. exact Hlt.
  - rewrite lookup_app_r by exact Hge.
    rewrite lookup_app_r by (rewrite length_replicate; reflexivity).
    rewrite length_replicate, Nat.sub_diag. reflexivity.
Qed.

(** Writing a 1 never clears a 1. *)
Lemma array_set_keeps (a : list value) (index : option Z) (j : nat) :
  a !! j = Some (VNumber 1) ->
  array_set a index (VNumber 1) !! j = Some (VNumber 1).
Proof.
  intros Hj. destruct index as [i |]; [| exact Hj]. unfold array_set.
  destruct (Nat.ltb_spec (Z.to_nat i) (length a)) as [Hlt | Hge].
  - destruct (Nat.eq_dec (Z.to_nat i) j) as [Heq | Hne].
    + rewrite <- Heq. apply list_lookup_insert_eq. exact Hlt.
    + rewrite list_lookup_insert_ne by exact Hne. exact Hj.
  - rewrite lookup_app_l; [exact Hj |]. apply lookup_lt_Some in Hj. exact Hj.
Qed.

Lemma hash_size (this this' : t) (str : string) (seed : Z) :
  size this = size this' -> _hash this str seed = _hash this' str seed.
Proof. intros Hsize. unfold _hash. rewrite Hsize. reflexivity. Qed.

Lemma fold_add_step_fields (str : string) (seeds : list Z) :
  forall this : t,
    size (fold_left (add_step str) seeds this) = size this /\
    hashFunctions (fold_left (add_step str) seeds this) = hashFunctions this.
Proof.
  induction seeds as [| seed seeds IH]; intros this; [split; reflexivity |].
  cbn [fold_left]. destruct (IH (add_step str this seed)) as [Hs Hh].
  rewrite Hs, Hh. split; reflexivity.
Qed.

Lemma fold_add_step_keeps (str : string) (seeds : list Z) :
  forall (this : t) (j : nat),
    bitArray this !! j = Some (VNumber 1) ->
    bitArray (fold_left (add_step str) seeds this) !! j = Some (VNumber 1).
Proof.
  induction seeds as [| seed seeds IH]; intros this j Hj; [exact Hj |].
  cbn [fold_left]. apply IH. cbn [add_step bitArray].
  apply array_set_keeps. exact Hj.
Qed.

(** After the loop of [add], the bit of every seed of the loop is set. *)
Lemma fold_add_step_sets (str : string) (seeds : list Z) :
  forall (this : t) (seed : Z),
    In seed seeds ->
    set_at (bitArray (fold_left (add_step str) seeds this)) (_hash this str seed).
Proof.
  induction seeds as [| s seeds IH]; intros this seed Hin; [destruct Hin |].
  cbn [fold_left]. destruct Hin as [-> | Hin].
  - destruct (_hash this str seed) as [i |] eqn:Hi; [| exact I].
    cbn [set_at]. apply fold_add_step_keeps. cbn [add_step bitArray].
    rewrite Hi. apply array_set_lookup.
  - rewrite (hash_size this (add_step str this s) str seed) by reflexivity.
    apply IH. exact Hin.
Qed.

Lemma add_size (this : t) (str : string) : size (add this str) = size this.
Proof. unfold add. apply fold_add_step_fields. Qed.

Lemma add_hashFunctions (this : t) (str : string) :
  hashFunctions (add this str) = hashFunctions this.
Proof. unfold add. apply fold_add_step_fields. Qed.

Lemma add_keeps (this : t) (str : string) (j : nat) :
  bitArray this !! j = Some (VNumber 1) ->
  bitArray (add this str) !! j = Some (VNumber 1).
Proof. unfold add. apply fold_add_step_keeps. Qed.

Lemma add_sets (this : t) (str : string) (seed : Z) :
  In seed (hashFunctions this) ->
  set_at (bitArray (add this str)) (_hash this str seed).
Proof. unfold add. apply fold_add_step_sets. Qed.

Lemma adds_fields (items : list string) :
  forall this : t,
    size (fold_left add items this) = size this /\
    hashFunctions (fold_left add items this) = hashFunctions this.
Proof.
  induction items as [| y items IH]; intros this; [split; reflexivity |].
  cbn [fold_left]. destruct (IH (add this y)) as [Hs Hh].
  rewrite Hs, Hh, add_size, add_hashFunctions. split; reflexivity.
Qed.

Lemma adds_keep (items : list string) :
  forall (this : t) (j : nat),
    bitArray this !! j = Some (VNumber 1) ->
    bitArray (fold_left add items this) !! j = Some (VNumber 1).
Proof.
  induction items as [| y items IH]; intros this j Hj; [exact Hj |].
  cbn [fold_left]. apply IH, add_keeps, Hj.
Qed.

Lemma set_at_not_zero (a : list value) (index : option Z) :
  set_at a index -> array_is_zero a index = false.
Proof.
  destruct index as [i |]; cbn [set_at array_is_zero]; [| reflexivity].
  intros ->. reflexivity.
Qed.

Lemma check_loop_true (this : t) (str : string) (seeds : list Z) :
  (forall seed, In seed seeds -> set_at (bitArray this) (_hash this str seed)) ->
  check_loop this str seeds = true.
Proof.
  induction seeds as [| seed seeds IH]; intros Hall; [reflexivity |].
  cbn [check_loop]. rewrite set_at_not_zero by (apply Hall; left; reflexivity).
  apply IH. intros s Hs. apply Hall. right. exact Hs.
Qed.

(** No false negatives, from any state of the filter. *)
Lemma check_after_add (this : t) (before after : list string) (x : string) :
  check (fold_left add (before ++ x :: after) this) x = true.
Proof.
  rewrite fold_left_app. cbn [fold_left].
  set (f1 := fold_left add before this).
  set (f2 := add f1 x).
  set (f3 := fold_left add after f2).
  assert (Hsize : size f3 = size f1).
  { unfold f3, f2. rewrite (proj1 (adds_fields after _)). apply add_size. }
  assert (Hseeds : hashFunctions f3 = hashFunctions f1).
  { unfold f3, f2. rewrite (proj2 (adds_fields after _)). apply add_hashFunctions. }
  unfold check. rewrite Hseeds. apply check_loop_true. intros seed Hin.
  rewrite (hash_size f3 f1 x seed Hsize).
  pose proof (add_sets f1 x seed Hin) as Hset. fold f2 in Hset.
  destruct (_hash f1 x seed) as [i |]; [| exact I].
  cbn [set_at] in *. unfold f3. apply adds_keep. exact Hset.
Qed.

(** In a filter built by the constructor with a size of at least 1 every
    index is an element of the array. *)
Lemma hash_in_range (sz : Z) (seeds : list Z) (this : t) (str : string) (seed : Z) :
  1 <= sz ->
  constructor (Some sz) (Some seeds) = Ok this ->
  exists i, _hash this str seed = Some i /\ 0 <= i < sz /\
            (Z.to_nat i < length (bitArray this))%nat.
Proof.
  intros Hsz Hnew. cbv beta iota zeta delta [constructor from_option id] in Hnew.
  destruct ((sz <? 0) || (2 ^ 32 <=? sz)); [discriminate |].
  injection Hnew as <-. unfold _hash. cbn [size bitArray].
  destruct (Z.eqb_spec sz 0) as [-> | _]; [lia |].
  exists (Z.rem (Z.abs (hash_loop str seed)) sz).
  split; [reflexivity |].
  assert (Hrange : 0 <= Z.rem (Z.abs (hash_loop str seed)) sz < sz)
    by (apply Z.rem_bound_pos; lia).
  split; [exact Hrange |]. rewrite length_replicate. lia.
Qed.

Lemma constructor_fields (sz : option Z) (seeds : option (list Z)) (this : t) :
  constructor sz seeds = Ok this ->
  size this = default 100 sz /\ hashFunctions this = default [] seeds /\
  bitArray this = replicate (Z.to_nat (default 100 sz)) (VNumber 0).
Proof.
  intros Hnew. cbv beta iota zeta delta [constructor] in Hnew.
  destruct ((default 100 sz <? 0) || (2 ^ 32 <=? default 100 sz)); [discriminate |].
  injection Hnew as <-. repeat split; reflexivity.
Qed.

(** With no seed, [add] has nothing to do and [check] finds nothing to
    refuse. *)
Lemma add_no_seed (this : t) (str : string) :
  hashFunctions this = [] -> add this str = this.
Proof. intros Hnil. unfold add. rewrite Hnil. reflexivity. Qed.

Lemma adds_no_seed (items : list string) (this : t) :
  hashFunctions this = [] -> fold_left add items this = this.
Proof.
  intros Hnil. induction items as [| y items IH]; [reflexivity |].
  cbn [fold_left]. rewrite add_no_seed by exact Hnil. exact IH.
Qed.

Lemma check_no_seed (this : t) (str : string) :
  hashFunctions this = [] -> check this str = true.
Proof. intros Hnil. unfold check. rewrite Hnil. reflexivity. Qed.

(** The run of [test/bloomFilter.test.js]. *)
Example fruit_test :
  let filter := fold_left add ["apple"; "banana"]%string fruit_filter in
  check filter "apple" = true /\ check filter "banana" = true /\
  check filter "grape" = false.
Proof. vm_compute. repeat split; reflexivity. Qed.

End BloomFilterFacts.

(** C9.  A filter built with a size of at least 1 and any list of seeds
    has no false negatives: after any sequence of [add] that contains
    [add(x)], [check(x)] is true, because for every seed the index of [x]
    is an element of the bit array and that element is 1.  Equivalently,
    an element of the bit array that is 1 stays 1 under every later
    [add]. *)
Theorem bloom_no_false_negatives (sz : Z) (seeds : list Z) (this : BloomFilter.t)
    (before after : list string) (x : string) :
  1 <= sz ->
  BloomFilter.constructor (Some sz) (Some seeds) = Ok this ->
  BloomFilter.check (fold_left BloomFilter.add (before ++ x :: after) this) x = true
  /\ (forall seed : Z,
        In seed seeds ->
        exists i : Z,
          0 <= i < sz /\
          BloomFilter._hash
            (fold_left BloomFilter.add (before ++ x :: after) this) x seed = Some i /\
          BloomFilter.bitArray
            (fold_left BloomFilter.add (before ++ x :: after) this) !! Z.to_nat i
          = Some (VNumber 1))
  /\ (forall (j : nat) (y : string),
        BloomFilter.bitArray (fold_left BloomFilter.add before this) !! j
          = Some (VNumber 1) ->
        BloomFilter.bitArray
          (BloomFilter.add (fold_left BloomFilter.add before this) y) !! j
          = Some (VNumber 1)).
Proof.
  intros Hsz Hnew. split; [apply BloomFilterFacts.check_after_add |]. split.
  - intros seed Hin.
    destruct (BloomFilterFacts.hash_in_range sz seeds this x seed Hsz Hnew)
      as (i & Hi & Hrange & _).
    destruct (BloomFilterFacts.constructor_fields _ _ _ Hnew) as (_ & Hseeds & _).
    cbn [default from_option id] in Hseeds.
    exists i. split; [exact Hrange |].
    set (final := fold_left BloomFilter.add (before ++ x :: after) this).
    assert (Hsize : BloomFilter.size final = BloomFilter.size this)
      by apply BloomFilterFacts.adds_fields.
    rewrite (BloomFilterFacts.hash_size final this x seed Hsize).
    split; [exact Hi |].
    unfold final. rewrite fold_left_app. cbn [fold_left].
    apply BloomFilterFacts.adds_keep.
    set (f1 := fold_left BloomFilter.add before this).
    assert (Hsize1 : BloomFilter.size this = BloomFilter.size f1)
      by (symmetry; apply BloomFilterFacts.adds_fields).
    assert (Hin1 : In seed (BloomFilter.hashFunctions f1)).
    { unfold f1. rewrite (proj2 (BloomFilterFacts.adds_fields before this)), Hseeds.
      exact Hin. }
    pose proof (BloomFilterFacts.add_sets f1 x seed Hin1) as Hset.
    rewrite <- (BloomFilterFacts.hash_size this f1 x seed Hsize1), Hi in Hset.
    exact Hset.
  - intros j y Hj. apply BloomFilterFacts.add_keeps. exact Hj.
Qed.

Lemma bloom_no_false_negatives_witness :
  1 <= 100 /\
  BloomFilter.constructor (Some 100) (Some [1; 7]) = Ok fruit_filter /\
  BloomFilter.check
    (fold_left BloomFilter.add (["apple"%string] ++ "banana"%string :: ["grape"%string])
       fruit_filter) "banana" = true.
Proof.
  split; [lia |]. split; [vm_compute; reflexivity |].
  apply (bloom_no_false_negatives 100 [1; 7] fruit_filter
           ["apple"%string] ["grape"%string] "banana"%string);
    [lia | vm_compute; reflexivity].
Defined.

(** C10.  A filter built with the empty list of seeds, which is what the
    constructor takes when no list is given, answers [true] to [check] for
    every string, on the fresh filter and after any sequence of [add], and
    [add] changes nothing, the bit array included. *)
Theorem bloom_without_seeds (sz : option Z) (seeds : option (list Z))
    (this : BloomFilter.t) (x : string) :
  seeds = None \/ seeds = Some [] ->
  BloomFilter.constructor sz seeds = Ok this ->
  BloomFilter.hashFunctions this = []
  /\ BloomFilter.check this x = true
  /\ (forall y : string,
        BloomFilter.add this y = this /\
        BloomFilter.bitArray (BloomFilter.add this y) = BloomFilter.bitArray this)
  /\ (forall items : list string,
        BloomFilter.check (fold_left BloomFilter.add items this) x = true).
Proof.
  intros Hempty Hnew.
  destruct (BloomFilterFacts.constructor_fields _ _ _ Hnew) as (_ & Hseeds & _).
  assert (Hnil : BloomFilter.hashFunctions this = []).
  { rewrite Hseeds. destruct Hempty as [-> | ->]; reflexivity. }
  split; [exact Hnil |]. split; [apply BloomFilterFacts.check_no_seed, Hnil |].
  split.
  - intros y. rewrite BloomFilterFacts.add_no_seed by exact Hnil.
    split; reflexivity.
  - intros items. rewrite BloomFilterFacts.adds_no_seed by exact Hnil.
    apply BloomFilterFacts.check_no_seed, Hnil.
Qed.

Lemma bloom_without_seeds_witness :
  BloomFilter.constructor None None = Ok default_filter /\
  BloomFilter.check default_filter "never added" = true.
Proof.
  split; [vm_compute; reflexivity |].
  apply (bloom_without_seeds None None default_filter "never added"%string).
  - left. reflexivity.
  - vm_compute. reflexivity.
Defined.

(** ** Constant-time comparison *)

Section CompareFacts.

Lemma ToInt32_small (z : Z) : 0 <= z < 2 ^ 31 -> ToInt32 z = z.
Proof.
  intros Hz. unfold ToInt32. rewrite Z.mod_small by lia.
  destruct (Z.ltb_spec z (2 ^ 31)); [reflexivity | lia].
Qed.

Lemma lxor_bound (a b n : Z) :
  0 < n -> 0 <= a < 2 ^ n -> 0 <= b < 2 ^ n -> 0 <= Z.lxor a b < 2 ^ n.
Proof.
  intros Hn Ha Hb. split; [apply Z.lxor_nonneg; lia |].
  destruct (Z.eq_dec (Z.lxor a b) 0) as [-> | Hne]; [apply Z.pow_pos_nonneg; lia |].
  assert (Hpos : 0 < Z.lxor a b)
    by (pose proof (proj2 (Z.lxor_nonneg a b)); lia).
  apply Z.log2_lt_pow2; [exact Hpos |].
  pose proof (Z.log2_lxor a b (proj1 Ha) (proj1 Hb)) as Hlog.
  assert (Z.log2 a < n) by (destruct (Z.eq_dec a 0) as [-> | ?];
    [simpl; lia | apply Z.log2_lt_pow2; lia]).
  assert (Z.log2 b < n) by (destruct (Z.eq_dec b 0) as [-> | ?];
    [simpl; lia | apply Z.log2_lt_pow2; lia]).
  lia.
Qed.

Lemma lor_bound (a b n : Z) :
  0 < n -> 0 <= a < 2 ^ n -> 0 <= b < 2 ^ n -> 0 <= Z.lor a b < 2 ^ n.
Proof.
  intros Hn Ha Hb. split; [apply Z.lor_nonneg; lia |].
  destruct (Z.eq_dec (Z.lor a b) 0) as [-> | Hne]; [apply Z.pow_pos_nonneg; lia |].
  assert (Hpos : 0 < Z.lor a b)
    by (pose proof (proj2 (Z.lor_nonneg a b)); lia).
  apply Z.log2_lt_pow2; [exact Hpos |].
  rewrite (Z.log2_lor a b (proj1 Ha) (proj1 Hb)).
  assert (Z.log2 a < n) by (destruct (Z.eq_dec a 0) as [-> | ?];
    [simpl; lia | apply Z.log2_lt_pow2; lia]).
  assert (Z.log2 b < n) by (destruct (Z.eq_dec b 0) as [-> | ?];
    [simpl; lia | apply Z.log2_lt_pow2; lia]).
  lia.
Qed.

Lemma code_bound (c : ascii) : 0 <= Z.of_N (N_of_ascii c) < 2 ^ 8.
Proof. pose proof (N_ascii_bounded c). change (2 ^ 8) with 256. lia. Qed.

Lemma get_lt (s : string) :
  forall i : nat, (i < String.length s)%nat -> exists c, String.get i s = Some c.
Proof.
  induction s as [| c s IH]; intros i Hi; cbn [String.length] in Hi; [lia |].
  destruct i as [| i]; [exists c; reflexivity |].
  cbn [String.get]. apply IH. lia.
Qed.

Lemma get_ge (s : string) :
  forall i : nat, (String.length s <= i)%nat -> String.get i s = None.
Proof.
  induction s as [| c s IH]; intros i Hi; [reflexivity |].
  cbn [String.length] in Hi. destruct i as [| i]; [lia |].
  cbn [String.get]. apply IH. lia.
Qed.

(** The exclusive-or of the codes at an index inside both strings. *)
Lemma xor_codes (s1 s2 : string) (i : nat) :
  (i < String.length s1)%nat -> (i < String.length s2)%nat ->
  let x := Z.lxor (code_to_int32 (charCodeAt s1 i)) (code_to_int32 (charCodeAt s2 i)) in
  0 <= x < 2 ^ 8 /\ (x = 0 <-> String.get i s1 = String.get i s2).
Proof.
  intros H1 H2. destruct (get_lt s1 i H1) as [c1 Hc1].
  destruct (get_lt s2 i H2) as [c2 Hc2].
  unfold charCodeAt. rewrite Hc1, Hc2. cbn [code_to_int32].
  pose proof (code_bound c1) as B1. pose proof (code_bound c2) as B2.
  rewrite !ToInt32_small by (change (2 ^ 8) with 256 in *; change (2 ^ 31) with 2147483648; lia).
  cbv zeta. split; [apply lxor_bound; lia |].
  rewrite Z.lxor_eq_0_iff. split.
  - intros Heq. apply N2Z.inj in Heq.
    rewrite <- (ascii_N_embedding c1), <- (ascii_N_embedding c2), Heq. reflexivity.
  - intros [= ->]. reflexivity.
Qed.

(** The accumulator ends at 0 exactly when it starts at 0 and the two
    strings agree at every index the loop visits. *)
Lemma compare_loop_zero (s1 s2 : string) (steps : nat) :
  forall (i : nat) (result : Z),
    (i + steps <= String.length s1)%nat ->
    (i + steps <= String.length s2)%nat ->
    0 <= result < 2 ^ 8 ->
    (compare_loop s1 s2 i steps result = 0 <->
     result = 0 /\
     forall j : nat, (i <= j < i + steps)%nat -> String.get j s1 = String.get j s2).
Proof.
  induction steps as [| steps IH]; intros i result H1 H2 Hres.
  - cbn [compare_loop]. split; [intros ->; split; [reflexivity | intros j Hj; lia] | tauto].
  - cbn [compare_loop].
    destruct (xor_codes s1 s2 i ltac:(lia) ltac:(lia)) as [Hx Hx0].
    set (x := Z.lxor _ _) in *.
    rewrite ToInt32_small by (change (2 ^ 8) with 256 in *; change (2 ^ 31) with 2147483648; lia).
    rewrite IH; [| lia | lia | apply lor_bound; lia].
    rewrite Z.lor_eq_0_iff, Hx0. split.
    + intros [[Hr Hi] Hrest]. split; [exact Hr |].
      intros j Hj. destruct (Nat.eq_dec j i) as [-> | Hne]; [exact Hi |].
      apply Hrest. lia.
    + intros [Hr Hall]. split; [split; [exact Hr | apply Hall; lia] |].
      intros j Hj. apply Hall. lia.
Qed.

Lemma strings_equal (s1 s2 : string) :
  String.length s1 = String.length s2 ->
  (forall j : nat, (j < String.length s1)%nat -> String.get j s1 = String.get j s2) ->
  s1 = s2.
Proof.
  intros Hlen Hall. apply get_correct. intros j.
  destruct (Nat.lt_ge_cases j (String.length s1)) as [Hlt | Hge].
  - apply Hall, Hlt.
  - rewrite (get_ge s1 j Hge), (get_ge s2 j) by lia. reflexivity.
Qed.

Lemma compare_strings (s1 s2 : string) :
  compare (VString s1) (VString s2) = true <->
  String.length s1 = String.length s2 /\
  forall j : nat, (j < String.length s1)%nat -> String.get j s1 = String.get j s2.
Proof.
  cbn [compare]. destruct (Nat.eqb_spec (String.length s1) (String.length s2)) as [Hlen | Hlen];
    cbn [negb].
  - rewrite Z.eqb_eq.
    rewrite (compare_loop_zero s1 s2 (String.length s1) 0 0)
      by (change (2 ^ 8) with 256; lia).
    split.
    + intros [_ Hall]. split; [exact Hlen |]. intros j Hj. apply Hall. lia.
    + intros [_ Hall]. split; [reflexivity |]. intros j Hj. apply Hall. lia.
  - split; [discriminate | intros [Heq _]; contradiction].
Qed.

End CompareFacts.

(** C8.  [compare] is a total function to the booleans.  It answers
    [true] exactly when both arguments are strings, of the same length,
    with the same character at every index, that is when they are the same
    string; it answers [false] when an argument is not a string, when the
    lengths differ, and when some character differs.  Two empty strings
    are equal. *)
Theorem compare_correct :
  (forall a b : value,
      compare a b = true <->
      exists s1 s2 : string,
        a = VString s1 /\ b = VString s2 /\
        String.length s1 = String.length s2 /\
        forall j : nat, (j < String.length s1)%nat ->
                        String.get j s1 = String.get j s2)
  /\ (forall a b : value, compare a b = true <-> exists s, a = VString s /\ b = VString s)
  /\ (forall a b : value, is_string a = false \/ is_string b = false -> compare a b = false)
  /\ (forall s1 s2 : string,
        String.length s1 <> String.length s2 ->
        compare (VString s1) (VString s2) = false)
  /\ (forall (s1 s2 : string) (j : nat),
        String.get j s1 <> String.get j s2 ->
        compare (VString s1) (VString s2) = false)
  /\ compare (VString "") (VString "") = true.
Proof.
  assert (Hmain : forall a b : value,
      compare a b = true <->
      exists s1 s2 : string,
        a = VString s1 /\ b = VString s2 /\
        String.length s1 = String.length s2 /\
        forall j : nat, (j < String.length s1)%nat ->
                        String.get j s1 = String.get j s2).
  { intros a b. split.
    - intros Hcmp. destruct a as [| | | | s1 |]; try discriminate Hcmp.
      destruct b as [| | | | s2 |]; try discriminate Hcmp.
      exists s1, s2. apply compare_strings in Hcmp. tauto.
    - intros (s1 & s2 & -> & -> & Hlen & Hall). apply compare_strings. tauto. }
  assert (Hsame : forall a b : value,
      compare a b = true <-> exists s, a = VString s /\ b = VString s).
  { intros a b. rewrite Hmain. split.
    - intros (s1 & s2 & -> & -> & Hlen & Hall). exists s1. split; [reflexivity |].
      f_equal. symmetry. apply strings_equal; assumption.
    - intros (s & -> & ->). exists s, s. repeat split; reflexivity. }
  split; [exact Hmain |]. split; [exact Hsame |]. split; [| split; [| split]].
  - intros a b [Ha | Hb].
    + destruct a; try reflexivity. discriminate Ha.
    + destruct a; try reflexivity. destruct b; try reflexivity. discriminate Hb.
  - intros s1 s2 Hlen. destruct (compare (VString s1) (VString s2)) eqn:Hcmp; [| reflexivity].
    apply compare_strings in Hcmp. tauto.
  - intros s1 s2 j Hj. destruct (compare (VString s1) (VString s2)) eqn:Hcmp; [| reflexivity].
    apply Hsame in Hcmp. destruct Hcmp as (s & [= ->] & [= ->]). contradiction.
  - reflexivity.
Qed.

(** ** Binary64 products *)

Module NumberFacts.

(** Name the quotient and the remainder of [x] by the numeral [y] and
    keep what relates them to [x]. *)
Ltac euclid x y :=
  let Hdm := fresh "Hdm" in
  let Hr := fresh "Hr" in
  pose proof (Z.div_mod x y ltac:(lia)) as Hdm;
  pose proof (Z.mod_pos_bound x y ltac:(lia)) as Hr;
  generalize dependent (x / y); generalize dependent (x mod y); intros.

(** Rounding to 53 bits moves a positive significand by at most half a
    unit in the last place, that is by at most [m / 2^53]. *)
Lemma round53_spec (m e : Z) :
  0 < m ->
  exists q d : Z,
    round53 m e = (q, e + d) /\ 0 <= d /\
    (d = 0 \/ d = Z.log2 m - 52) /\
    2 ^ 53 * (q * 2 ^ d - m) <= m /\ 2 ^ 53 * (m - q * 2 ^ d) <= m.
Proof.
  intros Hm. unfold round53.
  destruct (Z.leb_spec (Z.log2 m - 52) 0) as [Hd | Hd].
  - exists m, 0. rewrite Z.add_0_r, Z.pow_0_r, Z.mul_1_r.
    repeat split; lia.
  - set (d := Z.log2 m - 52) in *.
    assert (Hpow : 2 ^ d = 2 * 2 ^ (d - 1)).
    { replace d with (1 + (d - 1)) at 1 by lia.
      rewrite Z.pow_add_r by lia. reflexivity. }
    assert (Hhalf : 0 < 2 ^ (d - 1)) by (apply Z.pow_pos_nonneg; lia).
    assert (Hlog : 2 ^ 53 * 2 ^ (d - 1) <= m).
    { destruct (Z.log2_spec m Hm) as [Hlo _].
      replace (Z.log2 m) with (53 + (d - 1)) in Hlo by (unfold d; lia).
      rewrite Z.pow_add_r in Hlo by lia. exact Hlo. }
    pose proof (Z.div_mod m (2 ^ d) ltac:(lia)) as Hdm.
    pose proof (Z.mod_pos_bound m (2 ^ d) ltac:(lia)) as Hr.
    set (q := m / 2 ^ d) in *. set (r := m mod 2 ^ d) in *.
    set (X := 2 ^ (d - 1)) in *.
    rewrite Hpow in Hdm, Hr.
    exists (if r <? X then q else if X <? r then q + 1
            else if Z.even q then q else q + 1), d.
    split; [reflexivity |]. split; [lia |]. split; [right; reflexivity |].
    rewrite Hpow.
    destruct (Z.ltb_spec r X); [split; nia |].
    destruct (Z.ltb_spec X r); [split; nia |].
    destruct (Z.even q); split; nia.
Qed.

(** [Math.round] of a value with the exponent [d - P], [0 <= d < P],
    computed on the significand scaled to the exponent [- P]. *)
Lemma Math_round_scaled (q d P : Z) :
  0 <= d < P ->
  Math_round (Finite q (- P + d))
  = Finite ((2 * (q * 2 ^ d) + 2 ^ P) / 2 ^ (P + 1)) 0.
Proof.
  intros Hd. unfold Math_round.
  destruct (Z.leb_spec 0 (- P + d)) as [Hneg | _]; [lia |].
  f_equal.
  replace (- (- P + d) + 1) with (P - d + 1) by lia.
  replace (- (- P + d)) with (P - d) by lia.
  assert (H2d : 0 < 2 ^ d) by (apply Z.pow_pos_nonneg; lia).
  assert (Hden : 2 ^ (P + 1) = 2 ^ (P - d + 1) * 2 ^ d).
  { rewrite <- Z.pow_add_r by lia. f_equal. lia. }
  assert (Hnum : 2 * (q * 2 ^ d) + 2 ^ P = (2 * q + 2 ^ (P - d)) * 2 ^ d).
  { rewrite Z.mul_add_distr_r, <- Z.pow_add_r by lia.
    replace (P - d + d) with P by lia. ring. }
  rewrite Hden, Hnum. rewrite Z.div_mul_cancel_r; [reflexivity | | lia].
  apply Z.pow_nonzero; lia.
Qed.

(** The product of a positive integer below [2^49] with a significand
    below [2^53] at the exponent [- P], rounded to binary64 and then by
    [Math.round]: the scaled result [w] is within [h * c / 2^53] of the
    exact product. *)
Lemma rounded_product (h c P : Z) :
  0 < h < 2 ^ 49 -> 0 < c < 2 ^ 53 -> 53 <= P ->
  exists w : Z,
    Math_round (mul (of_Z h) (Finite c (- P)))
    = Finite ((2 * w + 2 ^ P) / 2 ^ (P + 1)) 0 /\
    2 ^ 53 * (w - h * c) <= h * c /\ 2 ^ 53 * (h * c - w) <= h * c.
Proof.
  intros Hh Hc HP. unfold mul, of_Z, round_binary64.
  assert (Hm : 0 < h * c) by nia.
  destruct (h * c) as [| p | p] eqn:Hp; try lia.
  rewrite <- Hp in *. rewrite Z.add_0_l.
  destruct (round53_spec (h * c) (- P) Hm) as (q & d & Hround & Hd0 & Hd & Hhi & Hlo).
  rewrite Hround.
  assert (Hd49 : d < 53).
  { destruct Hd as [-> | ->]; [lia |].
    assert (Z.log2 (h * c) < 102); [| lia].
    apply Z.log2_lt_pow2; [exact Hm |].
    change (2 ^ 102) with (2 ^ 49 * 2 ^ 53). nia. }
  exists (q * 2 ^ d). split; [| split; assumption].
  apply Math_round_scaled. lia.
Qed.

(** When the exact product lies just below a value [t * 2^d] that
    binary64 holds, by less than half a unit in the last place, the
    rounding goes up to it. *)
Lemma round53_up (m e t : Z) :
  0 < m ->
  let d := Z.log2 m - 52 in
  0 < d -> m < t * 2 ^ d -> 2 * (t * 2 ^ d - m) < 2 ^ d ->
  round53 m e = (t, e + d).
Proof.
  intros Hm d Hd Hlt Hnear. unfold round53. fold d.
  destruct (Z.leb_spec d 0) as [Hle | _]; [lia |].
  assert (Hpow : 2 ^ d = 2 * 2 ^ (d - 1)).
  { replace d with (1 + (d - 1)) at 1 by lia.
    rewrite Z.pow_add_r by lia. reflexivity. }
  assert (Hhalf : 0 < 2 ^ (d - 1)) by (apply Z.pow_pos_nonneg; lia).
  set (X := 2 ^ (d - 1)) in *. rewrite Hpow in *.
  assert (Hq : m / (2 * X) = t - 1).
  { symmetry. apply (Z.div_unique_pos m (2 * X) (t - 1) (m - (2 * X) * (t - 1))); nia. }
  assert (Hr : m mod (2 * X) = m - (2 * X) * (t - 1)).
  { pose proof (Z.div_mod m (2 * X) ltac:(lia)) as Hdm. rewrite Hq in Hdm. lia. }
  rewrite Hq, Hr.
  destruct (Z.ltb_spec (m - 2 * X * (t - 1)) X) as [Hbad | _]; [nia |].
  destruct (Z.ltb_spec X (m - 2 * X * (t - 1))) as [_ | Hbad]; [| nia].
  f_equal. lia.
Qed.

(** *** The three ratios *)

Lemma product_high (h : Z) :
  0 < h < 2 ^ 53 -> Math_round (mul (of_Z h) lit_1) = Finite h 0.
Proof.
  intros Hh. unfold mul, of_Z, lit_1, round_binary64. rewrite Z.mul_1_r.
  destruct h as [| p | p] eqn:Hp; try lia. rewrite <- Hp in *.
  unfold round53.
  assert (Hlog : Z.log2 h < 53) by (apply Z.log2_lt_pow2; lia).
  destruct (Z.leb_spec (Z.log2 h - 52) 0) as [_ | Hbad]; [| lia].
  cbn [Math_round Z.add Z.leb Z.compare]. rewrite Z.pow_0_r, Z.mul_1_r. reflexivity.
Qed.

Lemma product_medium (h : Z) :
  0 < h < 2 ^ 49 ->
  exists L : Z,
    Math_round (mul (of_Z h) lit_0_7) = Finite L 0 /\
    (7 * h + 5) / 10 - 1 <= L <= (7 * h + 5) / 10 /\
    (h mod 10 <> 5 -> L = (7 * h + 5) / 10).
Proof.
  intros Hh.
  destruct (rounded_product h 6305039478318694 53 Hh) as (w & Hround & Hhi & Hlo);
    [change (2 ^ 53) with 9007199254740992; lia | lia |].
  exists ((2 * w + 2 ^ 53) / 2 ^ (53 + 1)). split; [exact Hround |].
  clear Hround.
  change (2 ^ 49) with 562949953421312 in Hh.
  change (2 ^ 53) with 9007199254740992 in *.
  change (2 ^ (53 + 1)) with 18014398509481984.
  euclid (7 * h + 5) 10. euclid (2 * w + 9007199254740992) 18014398509481984.
  euclid h 10. lia.
Qed.

Lemma product_low (h : Z) :
  0 < h < 2 ^ 49 ->
  Math_round (mul (of_Z h) lit_0_3) = Finite ((3 * h + 5) / 10) 0.
Proof.
  intros Hh. destruct (Z.eq_dec (h mod 10) 5) as [Htie | Htie].
  - (* the exact product is a half: it is rounded up to the half *)
    assert (Hj : exists j, h = 5 * j /\ 0 < j).
    { exists (h / 5). destruct Hh as [Hh _]. euclid h 10. euclid h 5. lia. }
    destruct Hj as (j & -> & Hj).
    change (2 ^ 49) with 562949953421312 in Hh.
    unfold mul, of_Z, lit_0_3, round_binary64.
    set (m := 5 * j * 5404319552844595).
    assert (Hm : 0 < m) by (unfold m; lia).
    destruct m as [| p | p] eqn:Hp; try lia. rewrite <- Hp in *. clear Hp p.
    rewrite Z.add_0_l.
    set (d := Z.log2 m - 52).
    assert (Hd1 : 0 < d).
    { assert (53 <= Z.log2 m); [| unfold d; lia].
      apply Z.log2_le_pow2; [exact Hm |].
      change (2 ^ 53) with 9007199254740992. unfold m. lia. }
    assert (Hd53 : d < 53).
    { assert (Z.log2 m < 105); [| unfold d; lia].
      apply Z.log2_lt_pow2; [exact Hm |].
      change (2 ^ 105) with 40564819207303340847894502572032. unfold m. lia. }
    assert (H2d : 0 < 2 ^ d) by (apply Z.pow_pos_nonneg; lia).
    assert (Hsplit : 2 ^ 53 = 2 ^ (53 - d) * 2 ^ d).
    { rewrite <- Z.pow_add_r by lia. f_equal. lia. }
    assert (Hlog : m < 2 ^ 53 * 2 ^ d).
    { destruct (Z.log2_spec m Hm) as [_ Hup].
      rewrite <- Z.pow_add_r by lia.
      replace (53 + d) with (Z.succ (Z.log2 m)) by (unfold d; lia). exact Hup. }
    assert (HT : 3 * j * 2 ^ (53 - d) * 2 ^ d = 3 * j * 9007199254740992).
    { rewrite <- Z.mul_assoc, <- Hsplit. reflexivity. }
    rewrite (round53_up m (-54) (3 * j * 2 ^ (53 - d)) Hm); fold d;
      [| exact Hd1 | rewrite HT; unfold m; lia
       | rewrite HT; change (2 ^ 53) with 9007199254740992 in Hlog; unfold m in *; lia].
    cbv beta iota. change (-54) with (- (54)).
    rewrite (Math_round_scaled (3 * j * 2 ^ (53 - d)) d 54 ltac:(lia)).
    f_equal. rewrite HT.
    change (2 ^ 54) with 18014398509481984.
    change (2 ^ (54 + 1)) with 36028797018963968.
    clear. euclid (3 * (5 * j) + 5) 10.
    euclid (2 * (3 * j * 9007199254740992) + 18014398509481984) 36028797018963968.
    lia.
  - destruct (rounded_product h 5404319552844595 54 Hh) as (w & Hround & Hhi & Hlo);
      [change (2 ^ 53) with 9007199254740992; lia | lia |].
    change lit_0_3 with (Finite 5404319552844595 (- (54))).
    rewrite Hround. f_equal. clear Hround.
    change (2 ^ 49) with 562949953421312 in Hh.
    change (2 ^ 53) with 9007199254740992 in *.
    change (2 ^ 54) with 18014398509481984.
    change (2 ^ (54 + 1)) with 36028797018963968.
    euclid (3 * h + 5) 10. euclid (2 * w + 18014398509481984) 36028797018963968.
    euclid h 10. lia.
Qed.

(** *** Agreement with the Standard Library's IEEE 754 multiplication *)

Lemma iter_pos_nat {A : Type} (f : A -> A) (p : positive) :
  forall x : A, SpecFloat.iter_pos f p x = Nat.iter (Pos.to_nat p) f x.
Proof.
  induction p as [p IH | p IH |]; intros x; cbn [SpecFloat.iter_pos].
  - rewrite !IH, Pos2Nat.inj_xI.
    replace (S (2 * Pos.to_nat p)) with (Pos.to_nat p + (Pos.to_nat p + 1))%nat by lia.
    rewrite !Nat.iter_add. reflexivity.
  - rewrite !IH, Pos2Nat.inj_xO.
    replace (2 * Pos.to_nat p)%nat with (Pos.to_nat p + Pos.to_nat p)%nat by lia.
    rewrite Nat.iter_add. reflexivity.
  - reflexivity.
Qed.

Lemma shr_1_nonneg (m : Z) (r s : bool) :
  0 <= m ->
  shr_1 {| shr_m := m; shr_r := r; shr_s := s |}
  = {| shr_m := m / 2; shr_r := Z.odd m; shr_s := r || s |}.
Proof.
  intros Hm. destruct m as [| p | p]; [reflexivity | | lia].
  destruct p as [p | p |]; cbn [shr_1].
  - f_equal. rewrite Pos2Z.inj_xI. apply (Z.div_unique _ 2 _ 1); lia.
  - f_equal. rewrite Pos2Z.inj_xO. apply (Z.div_unique _ 2 _ 0); lia.
  - reflexivity.
Qed.

Lemma iter_shr_1 (m : Z) (n : nat) :
  0 <= m ->
  Nat.iter (S n) shr_1 {| shr_m := m; shr_r := false; shr_s := false |}
  = shifted m n.
Proof.
  intros Hm. induction n as [| n IH].
  - cbn [Nat.iter]. rewrite shr_1_nonneg by exact Hm. unfold shifted.
    change (2 ^ Z.of_nat 1) with 2. change (2 ^ Z.of_nat 0) with 1.
    pose proof (Zmod_odd m) as Hodd. pose proof (Z.mod_pos_bound m 2 ltac:(lia)).
    f_equal.
    + destruct (Z.odd m); destruct (Z.leb_spec 1 (m mod 2)); lia || reflexivity.
    + destruct (Z.odd m); rewrite Hodd; reflexivity.
  - rewrite Nat.iter_succ, IH. unfold shifted.
    assert (H2n : 0 < 2 ^ Z.of_nat n) by (apply Z.pow_pos_nonneg; lia).
    assert (HS : 2 ^ Z.of_nat (S n) = 2 ^ Z.of_nat n * 2).
    { rewrite Nat2Z.inj_succ, Z.pow_succ_r by lia. ring. }
    assert (HSS : 2 ^ Z.of_nat (S (S n)) = 2 ^ Z.of_nat (S n) * 2).
    { rewrite (Nat2Z.inj_succ (S n)), Z.pow_succ_r by lia. ring. }
    assert (HdivS : 0 <= m / 2 ^ Z.of_nat (S n)) by (apply Z.div_pos; lia).
    rewrite shr_1_nonneg by exact HdivS.
    pose proof (Z.rem_mul_r m (2 ^ Z.of_nat (S n)) 2 ltac:(lia) ltac:(lia)) as Hrem.
    rewrite <- HSS in Hrem.
    pose proof (Zmod_odd (m / 2 ^ Z.of_nat (S n))) as Hodd.
    pose proof (Z.mod_pos_bound m (2 ^ Z.of_nat (S n)) ltac:(lia)) as Hrho.
    set (rho := m mod 2 ^ Z.of_nat (S n)) in *.
    set (rho' := m mod 2 ^ Z.of_nat (S (S n))) in *.
    set (X := 2 ^ Z.of_nat n) in *. set (Y := 2 ^ Z.of_nat (S n)) in *.
    f_equal.
    + rewrite HSS. rewrite Z.div_div by lia. reflexivity.
    + destruct (Z.odd (m / Y)); destruct (Z.leb_spec Y rho'); lia || reflexivity.
    + destruct (Z.odd (m / Y));
        destruct (Z.leb_spec X rho); destruct (Z.eqb_spec rho 0);
        destruct (Z.eqb_spec rho X); destruct (Z.eqb_spec rho' 0);
        destruct (Z.eqb_spec rho' Y); cbn [negb andb orb]; lia || reflexivity.
Qed.

Lemma digits2_size (p : positive) : digits2_pos p = Pos.size p.
Proof. induction p as [p IH | p IH |]; cbn; rewrite ?IH; reflexivity. Qed.

Lemma Zdigits2_log2 (p : positive) : Zdigits2 (Z.pos p) = Z.log2 (Z.pos p) + 1.
Proof.
  cbn [Zdigits2]. rewrite digits2_size.
  destruct p as [p | p |]; cbn [Z.log2 Pos.size]; lia.
Qed.

(** The amount by which [shr_fexp] shifts a positive significand, away
    from the subnormal range. *)
Lemma shift_amount (p : positive) (e : Z) :
  -1022 <= e ->
  fexp 53 1024 (Zdigits2 (Z.pos p) + e) - e = Z.log2 (Z.pos p) - 52.
Proof.
  intros He. rewrite Zdigits2_log2. unfold fexp, emin.
  pose proof (Z.log2_nonneg (Z.pos p)). lia.
Qed.

Lemma shr_fexp_exact (p : positive) (e : Z) :
  -1022 <= e -> Z.log2 (Z.pos p) - 52 <= 0 ->
  shr_fexp 53 1024 (Z.pos p) e loc_Exact
  = ({| shr_m := Z.pos p; shr_r := false; shr_s := false |}, e).
Proof.
  intros He Hd. unfold shr_fexp. rewrite shift_amount by exact He.
  cbn [shr_record_of_loc]. unfold shr.
  destruct (Z.log2 (Z.pos p) - 52) as [| d | d]; [reflexivity | lia | reflexivity].
Qed.

Lemma shr_fexp_shift (p : positive) (e : Z) :
  -1022 <= e -> 0 < Z.log2 (Z.pos p) - 52 ->
  shr_fexp 53 1024 (Z.pos p) e loc_Exact
  = (shifted (Z.pos p) (Z.to_nat (Z.log2 (Z.pos p) - 52 - 1)),
     e + (Z.log2 (Z.pos p) - 52)).
Proof.
  intros He Hd. unfold shr_fexp. rewrite shift_amount by exact He.
  cbn [shr_record_of_loc]. unfold shr.
  destruct (Z.log2 (Z.pos p) - 52) as [| d | d] eqn:Hdd; [lia | | lia].
  rewrite iter_pos_nat.
  replace (Pos.to_nat d) with (S (Z.to_nat (Z.pos d - 1))) by lia.
  rewrite iter_shr_1 by lia. reflexivity.
Qed.

Lemma round53_agrees (p : positive) (e : Z) :
  -1022 <= e <= 971 -> e + Z.log2 (Z.pos p) <= 1022 ->
  Number.eqb (let '(q, e') := round53 (Z.pos p) e in Finite q e')
    (of_spec_float (binary_round_aux 53 1024 false (Z.pos p) e loc_Exact)) = true.
Proof.
  intros He Hmax. unfold round53, binary_round_aux.
  assert (Hm : 0 < Z.pos p) by lia.
  destruct (Z.leb_spec (Z.log2 (Z.pos p) - 52) 0) as [Hd | Hd].
  - rewrite shr_fexp_exact by lia.
    cbn [shr_m shr_r shr_s loc_of_shr_record round_nearest_even].
    rewrite shr_fexp_exact by lia.
    cbn [shr_m]. destruct (Z.leb_spec e (1024 - 53)) as [_ | Hbad]; [| lia].
    cbn [of_spec_float Number.eqb]. apply Z.eqb_refl.
  - rewrite shr_fexp_shift by lia.
    destruct (Z.log2_spec (Z.pos p) Hm) as [Hlo Hhi].
    remember (Z.log2 (Z.pos p) - 52) as d eqn:Hdef.
    remember (Z.pos p) as m eqn:Hmdef.
    unfold shifted. replace (Z.of_nat (S (Z.to_nat (d - 1)))) with d by lia.
    replace (Z.of_nat (Z.to_nat (d - 1))) with (d - 1) by lia.
    cbn [shr_m shr_r shr_s].
    assert (Hpow : 2 ^ d = 2 * 2 ^ (d - 1)).
    { replace d with (1 + (d - 1)) at 1 by lia. rewrite Z.pow_add_r by lia. reflexivity. }
    assert (Hhalf : 0 < 2 ^ (d - 1)) by (apply Z.pow_pos_nonneg; lia).
    replace (Z.log2 m) with (52 + d) in Hlo by lia.
    replace (Z.succ (Z.log2 m)) with (53 + d) in Hhi by lia.
    rewrite Z.pow_add_r in Hlo, Hhi by lia.
    pose proof (Z.div_mod m (2 ^ d) ltac:(lia)) as Hdm.
    pose proof (Z.mod_pos_bound m (2 ^ d) ltac:(lia)) as Hr.
    set (q := m / 2 ^ d) in *. set (r := m mod 2 ^ d) in *.
    set (X := 2 ^ (d - 1)) in *.
    change (2 ^ 52) with 4503599627370496 in Hlo.
    change (2 ^ 53) with 9007199254740992 in Hhi.
    assert (Hq : 4503599627370496 <= q < 9007199254740992) by nia.
    set (q' := if r <? X then q else if X <? r then q + 1
               else if Z.even q then q else q + 1).
    assert (Hround : round_nearest_even q
                       (loc_of_shr_record
                          {| shr_m := q; shr_r := X <=? r;
                             shr_s := negb (r =? 0) && negb (r =? X) |}) = q').
    { unfold q'. destruct (Z.leb_spec X r); destruct (Z.eqb_spec r 0);
        destruct (Z.eqb_spec r X); destruct (Z.ltb_spec r X);
        destruct (Z.ltb_spec X r); cbn; try lia; reflexivity. }
    rewrite Hround.
    assert (Hq' : 4503599627370496 <= q' <= 9007199254740992).
    { unfold q'. destruct (r <? X); [lia |]. destruct (X <? r); [lia |].
      destruct (Z.even q); lia. }
    clearbody q'. destruct q' as [| p' | p'] eqn:Hp'; try lia.
    destruct (Z.eq_dec (Z.pos p') 9007199254740992) as [Hcarry | Hnocarry].
    + injection Hcarry as ->.
      cbv [shr_fexp shr_record_of_loc Zdigits2 digits2_pos Pos.succ fexp emin].
      replace (Z.max (54 + (e + d) - 53) (3 - 1024 - 53) - (e + d)) with 1 by lia.
      cbn [shr SpecFloat.iter_pos shr_1 shr_m].
      destruct (Z.leb_spec (e + d + 1) (1024 - 53)) as [_ | Hbad]; [| lia].
      cbn [of_spec_float Number.eqb].
      rewrite Z.min_l by lia. replace (e + d - (e + d)) with 0 by lia.
      replace (e + d + 1 - (e + d)) with 1 by lia. reflexivity.
    + assert (Hlog : Z.log2 (Z.pos p') - 52 <= 0).
      { assert (Z.log2 (Z.pos p') < 53); [| lia].
        apply Z.log2_lt_pow2; [lia |].
        change (2 ^ 53) with 9007199254740992. lia. }
      rewrite shr_fexp_exact by lia.
      cbn [shr_m]. destruct (Z.leb_spec (e + d) (1024 - 53)) as [_ | Hbad]; [| lia].
      cbn [of_spec_float Number.eqb]. apply Z.eqb_refl.
Qed.

(** On positive operands away from the subnormal and the overflow range,
    [mul] denotes the same number as the Standard Library's binary64
    multiplication. *)
Theorem mul_ieee_agrees (ma ea mb eb : Z) :
  0 < ma -> 0 < mb ->
  -1022 <= ea + eb <= 971 -> ea + eb + Z.log2 (ma * mb) <= 1022 ->
  Number.eqb (mul (Finite ma ea) (Finite mb eb))
             (mul_ieee (Finite ma ea) (Finite mb eb)) = true.
Proof.
  intros Ha Hb Hlo Hhi.
  destruct ma as [| pa | pa]; try lia. destruct mb as [| pb | pb]; try lia.
  unfold mul, mul_ieee, round_binary64.
  cbn [to_spec_float SFmul xorb Z.mul].
  apply round53_agrees; assumption.
Qed.

(** In particular the products that [mask] forms are the binary64
    products. *)
Corollary mask_products_are_ieee (h : Z) (r : number) :
  0 < h < 2 ^ 53 -> In r [lit_0_3; lit_0_7; lit_1] ->
  Number.eqb (mul (of_Z h) r) (mul_ieee (of_Z h) r) = true.
Proof.
  intros Hh Hr.
  assert (Hlog : forall c, 0 < c < 2 ^ 53 -> Z.log2 (h * c) < 106).
  { intros c Hc. apply Z.log2_lt_pow2; [nia |].
    change (2 ^ 106) with (2 ^ 53 * 2 ^ 53). nia. }
  destruct Hr as [<- | [<- | [<- | []]]]; apply mul_ieee_agrees; try lia.
  - specialize (Hlog 5404319552844595 ltac:(change (2 ^ 53) with 9007199254740992; lia)). lia.
  - specialize (Hlog 6305039478318694 ltac:(change (2 ^ 53) with 9007199254740992; lia)). lia.
  - specialize (Hlog 1 ltac:(change (2 ^ 53) with 9007199254740992; lia)). lia.
Qed.

End NumberFacts.

(** ** Strings *)

Module StringFacts.

Lemma length_append (s1 s2 : string) :
  String.length (String.append s1 s2) = (String.length s1 + String.length s2)%nat.
Proof.
  induction s1 as [| c s1 IH]; [reflexivity |].
  cbn [String.append String.length]. rewrite IH. reflexivity.
Qed.

Lemma length_substring (s : string) :
  forall n m : nat,
    (n + m <= String.length s)%nat -> String.length (String.substring n m s) = m.
Proof.
  induction s as [| c s IH]; intros n m Hle; cbn [String.length] in Hle.
  - destruct n, m; try lia; reflexivity.
  - destruct n as [| n]; cbn [String.substring].
    + destruct m as [| m]; [reflexivity |].
      cbn [String.length]. rewrite IH by lia. reflexivity.
    + apply IH. lia.
Qed.

Lemma length_repeat_char (c : ascii) (k : nat) :
  String.length (repeat_string (String c EmptyString) k) = k.
Proof.
  induction k as [| k IH]; [reflexivity |].
  cbn [repeat_string String.append String.length]. rewrite IH. reflexivity.
Qed.

Lemma get_repeat_char (c : ascii) (k : nat) :
  forall i : nat, (i < k)%nat ->
    String.get i (repeat_string (String c EmptyString) k) = Some c.
Proof.
  induction k as [| k IH]; intros i Hi; [lia |].
  cbn [repeat_string String.append]. destruct i as [| i]; [reflexivity |].
  cbn [String.get]. apply IH. lia.
Qed.

Lemma get_append_l (s1 s2 : string) (i : nat) :
  (i < String.length s1)%nat -> String.get i (String.append s1 s2) = String.get i s1.
Proof. intros Hi. symmetry. apply append_correct1. exact Hi. Qed.

Lemma get_append_r (s1 s2 : string) (i : nat) :
  (String.length s1 <= i)%nat ->
  String.get i (String.append s1 s2) = String.get (i - String.length s1) s2.
Proof.
  intros Hi. rewrite (append_correct2 s1 s2 (i - String.length s1)).
  f_equal. lia.
Qed.

(** The two calls of [substring] in [mask], on indices inside the
    string. *)
Lemma substring_prefix (s : string) (b : Z) :
  0 <= b <= Z.of_nat (String.length s) ->
  substring s 0 b = Spec.slice s 0 b.
Proof.
  intros Hb. unfold substring, Spec.slice, clamp.
  rewrite (Z.min_l 0) by lia. rewrite (Z.max_l 0 0) by lia.
  rewrite (Z.min_l b) by lia. rewrite (Z.max_r 0 b) by lia.
  rewrite (Z.min_l 0 b) by lia. rewrite (Z.max_r 0 b) by lia. reflexivity.
Qed.

Lemma substring_suffix (s : string) (a : Z) :
  0 <= a <= Z.of_nat (String.length s) ->
  substring s a (Z.of_nat (String.length s))
  = Spec.slice s a (Z.of_nat (String.length s)).
Proof.
  intros Ha. unfold substring, Spec.slice, clamp.
  set (n := Z.of_nat (String.length s)) in *.
  rewrite (Z.min_l a n) by lia. rewrite (Z.max_r 0 a) by lia.
  rewrite (Z.min_l n n) by lia. rewrite (Z.max_r 0 n) by lia.
  rewrite (Z.min_l a n) by lia. rewrite (Z.max_r a n) by lia. reflexivity.
Qed.

Lemma length_slice (s : string) (a b : Z) :
  0 <= a <= b -> b <= Z.of_nat (String.length s) ->
  Z.of_nat (String.length (Spec.slice s a b)) = b - a.
Proof.
  intros Ha Hb. unfold Spec.slice. rewrite length_substring by lia. lia.
Qed.

Lemma get_slice (s : string) (a b : Z) (i : nat) :
  0 <= a <= b -> Z.of_nat i < b - a ->
  String.get i (Spec.slice s a b) = String.get (i + Z.to_nat a) s.
Proof.
  intros Ha Hi. unfold Spec.slice. apply substring_correct1. lia.
Qed.

End StringFacts.

(** ** Masking: the ratio *)

Module MaskFacts.
Import NumberFacts StringFacts.

(** The three recognised keys and every key that [Object.prototype]
    does not define resolve to a number of the table. *)
Lemma maskRatio_number (key : string) :
  inherited key = false ->
  ToNumber (maskRatio key)
  = if String.eqb key "low" then lit_0_3
    else if String.eqb key "high" then lit_1
    else lit_0_7.
Proof.
  intros Hkey. unfold maskRatio, sensitivityLevels at 1.
  destruct (String.eqb key "low") eqn:Hlow; [reflexivity |].
  destruct (String.eqb key "medium") eqn:Hmed.
  - apply String.eqb_eq in Hmed. subst key. reflexivity.
  - destruct (String.eqb key "high") eqn:Hhigh; [reflexivity |].
    rewrite Hkey. reflexivity.
Qed.

(** A key that [Object.prototype] defines resolves to a function or an
    object, and the product is [NaN]. *)
Lemma maskRatio_inherited (key : string) (hidden : Z) :
  inherited key = true -> maskedPartLength hidden key = NaN.
Proof.
  intros Hkey. unfold maskedPartLength, maskRatio, sensitivityLevels at 1.
  destruct (String.eqb key "low") eqn:Hlow.
  { apply String.eqb_eq in Hlow. subst key. discriminate Hkey. }
  destruct (String.eqb key "medium") eqn:Hmed.
  { apply String.eqb_eq in Hmed. subst key. discriminate Hkey. }
  destruct (String.eqb key "high") eqn:Hhigh.
  { apply String.eqb_eq in Hhigh. subst key. discriminate Hkey. }
  rewrite Hkey. reflexivity.
Qed.

Lemma spec_maskedLength (h : Z) (key : string) :
  Spec.maskedLength h key
  = if String.eqb key "low" then (3 * h + 5) / 10
    else if String.eqb key "high" then h
    else (7 * h + 5) / 10.
Proof.
  unfold Spec.maskedLength, Spec.round_half_up, Spec.sensitivityRatio.
  destruct (String.eqb key "low"); [| destruct (String.eqb key "high")];
    unfold Qfloor, Qplus, Qmult, inject_Z; cbn [Qnum Qden Pos.mul];
    cbv beta iota.
  - change (Z.pos (1 * 10 * 2)) with (2 * 10). change (Z.pos 2) with 2.
    replace (h * 3 * 2 + 1 * Z.pos (1 * 10)) with (2 * (3 * h + 5)) by lia.
    apply Z.div_mul_cancel_l; lia.
  - change (Z.pos (1 * 1 * 2)) with 2. change (Z.pos 2) with 2.
    replace (h * 1 * 2 + 1 * Z.pos (1 * 1)) with (1 + h * 2) by lia.
    rewrite Z.div_add by lia. reflexivity.
  - change (Z.pos (1 * 10 * 2)) with (2 * 10). change (Z.pos 2) with 2.
    replace (h * 7 * 2 + 1 * Z.pos (1 * 10)) with (2 * (7 * h + 5)) by lia.
    apply Z.div_mul_cancel_l; lia.
Qed.

(** What [mask] computes for the masked length, against the rule of the
    specification. *)
Lemma maskedPartLength_spec (h : Z) (key : string) :
  0 < h < 2 ^ 49 -> inherited key = false ->
  exists L : Z,
    maskedPartLength h key = Finite L 0 /\ 0 <= L /\
    Spec.maskedLength h key - 1 <= L <= Spec.maskedLength h key /\
    (String.eqb key "low" = true \/ String.eqb key "high" = true \/ h mod 10 <> 5 ->
     L = Spec.maskedLength h key).
Proof.
  intros Hh Hkey. unfold maskedPartLength.
  rewrite (maskRatio_number key Hkey), spec_maskedLength.
  destruct (String.eqb key "low") eqn:Hlow.
  - exists ((3 * h + 5) / 10). rewrite product_low by exact Hh.
    split; [reflexivity |]. split; [apply Z.div_pos; lia |].
    split; [lia | reflexivity].
  - destruct (String.eqb key "high") eqn:Hhigh.
    + exists h. rewrite product_high
        by (change (2 ^ 49) with 562949953421312 in Hh;
            change (2 ^ 53) with 9007199254740992; lia).
      split; [reflexivity |]. split; [lia |]. split; [lia | reflexivity].
    + destruct (product_medium h Hh) as (L & HL & Hnear & Hexact).
      exists L. split; [exact HL |]. split.
      { assert (1 <= (7 * h + 5) / 10); [| lia].
        apply Z.div_le_lower_bound; lia. }
      split; [exact Hnear |].
      intros [Hl | [Hhi | Htie]]; [discriminate | discriminate | exact (Hexact Htie)].
Qed.

(** The shape of the result past the two early returns, for a literal
    mask character and a masked length that is a number. *)
Lemma mask_literal (s : string) (a : options_arg) (o : options) (c : string) (L : Z) :
  destructure a = Ok o ->
  char_of o = Literal c ->
  0 <= start_of o -> 0 <= end_of o ->
  start_of o + end_of o < Z.of_nat (String.length s) ->
  maskedPartLength (Z.of_nat (String.length s) - start_of o - end_of o) (key_of o)
    = Finite L 0 ->
  0 <= L ->
  mask (VString s) a
  = Ok (String.append (Spec.slice s 0 (start_of o))
          (String.append (repeat_string c (Z.to_nat L))
             (Spec.slice s (Z.of_nat (String.length s) - end_of o)
                (Z.of_nat (String.length s))))).
Proof.
  intros Ha Hchar Hvs Hve Hlt HL HL0. unfold mask. rewrite Ha. cbn [bind]. cbv zeta.
  change (default 2 (visibleStart o)) with (start_of o).
  change (default 2 (visibleEnd o)) with (end_of o).
  change (default (Literal "*") (maskChar o)) with (char_of o).
  change (default "medium"%string (sensitivity o)) with (key_of o).
  destruct (Z.geb_spec (start_of o + end_of o) (Z.of_nat (String.length s)))
    as [Hge | _]; [lia |].
  rewrite Hchar, HL. unfold repeat, ToInteger.
  cbn [Z.leb Z.compare]. rewrite Z.pow_0_r, Z.mul_1_r.
  destruct (Z.ltb_spec L 0) as [Hneg | _]; [lia |].
  cbn [bind]. rewrite substring_prefix, substring_suffix by lia. reflexivity.
Qed.

(** A key that [Object.prototype] defines does not fall back to
    [medium]: the masked part is empty. *)
Lemma mask_inherited_key (s : string) (a : options_arg) (o : options) (c : string) :
  destructure a = Ok o ->
  char_of o = Literal c ->
  inherited (key_of o) = true ->
  0 <= start_of o -> 0 <= end_of o ->
  start_of o + end_of o < Z.of_nat (String.length s) ->
  mask (VString s) a
  = Ok (String.append (Spec.slice s 0 (start_of o))
          (Spec.slice s (Z.of_nat (String.length s) - end_of o)
             (Z.of_nat (String.length s)))).
Proof.
  intros Ha Hchar Hkey Hvs Hve Hlt. unfold mask. rewrite Ha. cbn [bind]. cbv zeta.
  change (default 2 (visibleStart o)) with (start_of o).
  change (default 2 (visibleEnd o)) with (end_of o).
  change (default (Literal "*") (maskChar o)) with (char_of o).
  change (default "medium"%string (sensitivity o)) with (key_of o).
  destruct (Z.geb_spec (start_of o + end_of o) (Z.of_nat (String.length s)))
    as [Hge | _]; [lia |].
  rewrite Hchar, (maskRatio_inherited (key_of o) _ Hkey).
  cbn [repeat ToInteger Z.ltb Z.compare Z.to_nat repeat_string bind String.append].
  rewrite substring_prefix, substring_suffix by lia. reflexivity.
Qed.

(** The ratio 0.7 on a half: 3.5 is rounded up to 4 as the exact rule has
    it, 31.5 is not reached by the binary64 product. *)
Example medium_halves :
  maskedPartLength 5 "medium" = Finite 4 0 /\ Spec.maskedLength 5 "medium" = 4 /\
  maskedPartLength 45 "medium" = Finite 31 0 /\ Spec.maskedLength 45 "medium" = 32.
Proof. vm_compute. repeat split; reflexivity. Qed.

(** The first case of the test file of [mask]. *)
Example mask_secret1234 :
  mask (VString "secret1234") OptionsUndefined = Ok "se****34"%string.
Proof. vm_compute. reflexivity. Qed.

Example mask_unknown_key :
  mask (VString "secret1234")
    (OptionsObject {| visibleStart := None; visibleEnd := None; maskChar := None;
                      sensitivity := Some "extreme"%string |})
  = Ok "se****34"%string.
Proof. vm_compute. reflexivity. Qed.

End MaskFacts.

(** ** Masking: the full rule *)

(** C4.  With the sensitivity ["high"], visible counts that are not
    negative and leave a hidden span, and a literal mask character [c],
    the masked length is the hidden span: the result has the length of the
    input, carries [c] at every index of the hidden span and the input's
    own character at every other index.  The length of a JavaScript
    string is below [2^53]. *)
Theorem mask_high_sensitivity (s : string) (a : options_arg) (o : options) (c : ascii) :
  destructure a = Ok o ->
  sensitivity o = Some "high"%string ->
  char_of o = Literal (String c EmptyString) ->
  0 <= start_of o -> 0 <= end_of o ->
  start_of o + end_of o < Z.of_nat (String.length s) ->
  Z.of_nat (String.length s) < 2 ^ 53 ->
  maskedPartLength (Z.of_nat (String.length s) - start_of o - end_of o) "high"
    = Finite (Z.of_nat (String.length s) - start_of o - end_of o) 0
  /\ exists r : string,
       mask (VString s) a = Ok r /\
       String.length r = String.length s /\
       (forall i : nat,
           start_of o <= Z.of_nat i < Z.of_nat (String.length s) - end_of o ->
           String.get i r = Some c) /\
       (forall i : nat,
           Z.of_nat i < start_of o \/ Z.of_nat (String.length s) - end_of o <= Z.of_nat i ->
           String.get i r = String.get i s).
Proof.
  intros Ha Hkey Hchar Hvs Hve Hlt Hlen.
  assert (HL : maskedPartLength
                 (Z.of_nat (String.length s) - start_of o - end_of o) "high"
               = Finite (Z.of_nat (String.length s) - start_of o - end_of o) 0).
  { unfold maskedPartLength. change (ToNumber (maskRatio "high")) with lit_1.
    apply NumberFacts.product_high. lia. }
  split; [exact HL |].
  assert (Hkey' : key_of o = "high"%string) by (unfold key_of; rewrite Hkey; reflexivity).
  eexists. split.
  { apply (MaskFacts.mask_literal s a o (String c EmptyString)
             (Z.of_nat (String.length s) - start_of o - end_of o)
             Ha Hchar Hvs Hve Hlt).
    - rewrite Hkey'. exact HL.
    - lia. }
  clear HL Hlen.
  remember (Z.of_nat (String.length s)) as n eqn:Hn.
  remember (n - start_of o - end_of o) as h eqn:Hh.
  assert (Hp : Z.of_nat (String.length (Spec.slice s 0 (start_of o))) = start_of o).
  { rewrite StringFacts.length_slice by lia. lia. }
  assert (Hs : Z.of_nat (String.length
                           (repeat_string (String c EmptyString) (Z.to_nat h))) = h).
  { rewrite StringFacts.length_repeat_char. lia. }
  assert (Hx : Z.of_nat (String.length (Spec.slice s (n - end_of o) n)) = end_of o).
  { rewrite StringFacts.length_slice by lia. lia. }
  split; [| split].
  - rewrite !StringFacts.length_append. lia.
  - intros i Hi.
    rewrite StringFacts.get_append_r by lia.
    rewrite StringFacts.get_append_l by lia.
    apply StringFacts.get_repeat_char. lia.
  - intros i [Hi | Hi].
    + rewrite StringFacts.get_append_l by lia.
      rewrite StringFacts.get_slice by lia.
      f_equal. lia.
    + rewrite StringFacts.get_append_r by lia.
      rewrite StringFacts.get_append_r by lia.
      destruct (Z.lt_ge_cases (Z.of_nat i) n) as [Hin | Hout].
      * rewrite StringFacts.get_slice by lia.
        f_equal. lia.
      * rewrite (get_ge s i) by lia.
        apply get_ge. lia.
Qed.

Lemma mask_high_sensitivity_witness :
  maskedPartLength
    (Z.of_nat (String.length "confidential-info")
     - start_of high_options - end_of high_options) "high"
  = Finite (Z.of_nat (String.length "confidential-info")
            - start_of high_options - end_of high_options) 0
  /\ mask (VString "confidential-info") (OptionsObject high_options)
     = Ok "conf##########nfo"%string.
Proof.
  assert (H1 : destructure (OptionsObject high_options) = Ok high_options) by reflexivity.
  assert (H2 : sensitivity high_options = Some "high"%string) by reflexivity.
  assert (H3 : char_of high_options = Literal (String "#" EmptyString)) by reflexivity.
  assert (H4 : 0 <= start_of high_options) by (vm_compute; discriminate).
  assert (H5 : 0 <= end_of high_options) by (vm_compute; discriminate).
  assert (H6 : start_of high_options + end_of high_options
               < Z.of_nat (String.length "confidential-info")) by reflexivity.
  assert (H7 : Z.of_nat (String.length "confidential-info") < 2 ^ 53) by reflexivity.
  split; [| vm_compute; reflexivity].
  exact (proj1 (mask_high_sensitivity "confidential-info" (OptionsObject high_options)
                  high_options "#"%char H1 H2 H3 H4 H5 H6 H7)).
Defined.

(** C1, as amended.  For a string shorter than [2^49] characters, visible
    counts that are not negative and leave a hidden span [h], a literal
    mask character and a sensitivity key that [Object.prototype] does not
    define, [mask] returns the first [visibleStart] characters, the mask
    character repeated [L] times and the last [visibleEnd] characters,
    where [L] is [Math.round] of the binary64 product of [h] with the
    binary64 ratio of the key (0.3, 0.7 or 1, and 0.7 for a key that is
    not in the table).  [L] is the exact product rounded with halves
    going up whenever the key is ["low"] or ["high"] or [h mod 10] is not
    5, and the result is then the one of the specification; in the
    remaining case, a half under the ratio 0.7, [L] is that number or one
    less. *)
Theorem mask_formula (s : string) (a : options_arg) (o : options) (c : string) :
  destructure a = Ok o ->
  char_of o = Literal c ->
  inherited (key_of o) = false ->
  0 <= start_of o -> 0 <= end_of o ->
  start_of o + end_of o < Z.of_nat (String.length s) ->
  Z.of_nat (String.length s) < 2 ^ 49 ->
  let n := Z.of_nat (String.length s) in
  let h := n - start_of o - end_of o in
  exists L : Z,
    maskedPartLength h (key_of o) = Finite L 0 /\
    mask (VString s) a
    = Ok (String.append (Spec.slice s 0 (start_of o))
            (String.append (repeat_string c (Z.to_nat L))
               (Spec.slice s (n - end_of o) n))) /\
    Spec.maskedLength h (key_of o) - 1 <= L <= Spec.maskedLength h (key_of o) /\
    (key_of o = "low"%string \/ key_of o = "high"%string \/ h mod 10 <> 5 ->
     L = Spec.maskedLength h (key_of o) /\
     mask (VString s) a = Ok (Spec.Mask s (start_of o) (end_of o) c (key_of o))).
Proof.
  intros Ha Hchar Hkey Hvs Hve Hlt Hlen n h.
  destruct (MaskFacts.maskedPartLength_spec h (key_of o)) as (L & HL & HL0 & Hnear & Hexact);
    [unfold h, n; change (2 ^ 49) with 562949953421312 in *; lia | exact Hkey |].
  exists L. split; [exact HL |].
  pose proof (MaskFacts.mask_literal s a o c L Ha Hchar Hvs Hve Hlt HL HL0) as Hmask.
  split; [exact Hmask |]. split; [exact Hnear |].
  intros Hcase.
  assert (HLspec : L = Spec.maskedLength h (key_of o)).
  { apply Hexact. destruct Hcase as [-> | [-> | Htie]];
      [left; reflexivity | right; left; reflexivity | right; right; exact Htie]. }
  split; [exact HLspec |].
  rewrite Hmask, HLspec. reflexivity.
Qed.

Lemma mask_formula_witness :
  mask (VString "4111111111111111") (OptionsObject low_options)
    = Ok (Spec.Mask "4111111111111111" 1 4 "x" "low")
  /\ Spec.Mask "4111111111111111" 1 4 "x" "low" = "4xxx1111"%string.
Proof.
  split; [| vm_compute; reflexivity].
  assert (H1 : destructure (OptionsObject low_options) = Ok low_options) by reflexivity.
  assert (H2 : char_of low_options = Literal "x") by reflexivity.
  assert (H3 : inherited (key_of low_options) = false) by reflexivity.
  assert (H4 : 0 <= start_of low_options) by (vm_compute; discriminate).
  assert (H5 : 0 <= end_of low_options) by (vm_compute; discriminate).
  assert (H6 : start_of low_options + end_of low_options
               < Z.of_nat (String.length "4111111111111111")) by reflexivity.
  assert (H7 : Z.of_nat (String.length "4111111111111111") < 2 ^ 49) by reflexivity.
  destruct (mask_formula "4111111111111111" (OptionsObject low_options) low_options
              "x"%string H1 H2 H3 H4 H5 H6 H7) as (L & _ & _ & _ & Hexact).
  apply Hexact. left. reflexivity.
Defined.

(** C1 as the specification states it fails, in two ways.  A string of
    49 characters with no options has a hidden span of 45; the exact
    product with 0.7 is 31.5, which rounds to 32 with halves going up, but
    the binary64 product is [8866461766385663 * 2^-48], just below 31.5,
    and [Math.round] gives 31.  And the key ["constructor"], which is not
    in the table, does not take the ratio of [medium]: the lookup finds
    [Object.prototype.constructor], the product is [NaN] and nothing is
    put between the visible parts. *)
Lemma mask_formula_counterexample :
  (String.length string49 = 49%nat /\
   Spec.maskedLength 45 "medium" = 32 /\
   maskedPartLength 45 "medium" = Finite 31 0 /\
   mul (of_Z 45) lit_0_7 = Finite 8866461766385663 (-48) /\
   mul_ieee (of_Z 45) lit_0_7 = Finite 8866461766385663 (-48) /\
   mask (VString string49) OptionsUndefined
     = Ok (String.append "01" (String.append (repeat_string "*" 31) "78")) /\
   mask (VString string49) OptionsUndefined
     <> Ok (Spec.Mask string49 2 2 "*" "medium"))
  /\
  (mask (VString "secret1234") (OptionsObject constructor_options) = Ok "se34"%string /\
   Spec.Mask "secret1234" 2 2 "*" "constructor" = "se****34"%string /\
   mask (VString "secret1234") (OptionsObject constructor_options)
     <> Ok (Spec.Mask "secret1234" 2 2 "*" "constructor")).
Proof.
  split.
  - repeat split; try (vm_compute; reflexivity).
    vm_compute. discriminate.
  - repeat split; try (vm_compute; reflexivity).
    vm_compute. discriminate.
Qed.

(** ** bloomFilter.js: the hash, the invariant and the exact answer *)

Module BloomFilterMore.
Import BloomFilter BloomFilterFacts BloomFilterInv.

Lemma ToInt32_shift (z k : Z) : ToInt32 (z + k * 2 ^ 32) = ToInt32 z.
Proof. unfold ToInt32. rewrite Z_mod_plus_full. reflexivity. Qed.

Lemma ToInt32_repr (z : Z) : exists k : Z, ToInt32 z = z + k * 2 ^ 32.
Proof.
  unfold ToInt32. pose proof (Z.div_mod z (2 ^ 32) ltac:(lia)) as Hdm.
  destruct (z mod 2 ^ 32 <? 2 ^ 31).
  - exists (- (z / 2 ^ 32)). lia.
  - exists (- (z / 2 ^ 32) - 1). lia.
Qed.

Lemma ToInt32_idem (z : Z) : ToInt32 (ToInt32 z) = ToInt32 z.
Proof.
  destruct (ToInt32_repr z) as [k Hk].
  transitivity (ToInt32 (z + k * 2 ^ 32)); [f_equal; exact Hk | apply ToInt32_shift].
Qed.

Lemma ToInt32_range (z : Z) : - 2 ^ 31 <= ToInt32 z < 2 ^ 31.
Proof.
  unfold ToInt32. pose proof (Z.mod_pos_bound z (2 ^ 32) ltac:(lia)).
  destruct (Z.ltb_spec (z mod 2 ^ 32) (2 ^ 31)); lia.
Qed.

Lemma hash_step (h c : Z) :
  ToInt32 (ToInt32 (ToInt32 h * 2 ^ 5) - h + c) = ToInt32 (31 * h + c).
Proof.
  destruct (ToInt32_repr h) as [k1 Hk1].
  destruct (ToInt32_repr (ToInt32 h * 2 ^ 5)) as [k2 Hk2].
  rewrite Hk2, Hk1.
  replace ((h + k1 * 2 ^ 32) * 2 ^ 5 + k2 * 2 ^ 32 - h + c)
    with (31 * h + c + (k1 * 2 ^ 5 + k2) * 2 ^ 32) by lia.
  apply ToInt32_shift.
Qed.

Lemma horner31_shift (str : string) :
  forall h k : Z, exists k' : Z, horner31 str (h + k * 2 ^ 32) = horner31 str h + k' * 2 ^ 32.
Proof.
  induction str as [| c str IH]; intros h k; cbn [horner31].
  - exists k. reflexivity.
  - replace (31 * (h + k * 2 ^ 32) + Z.of_N (N_of_ascii c))
      with (31 * h + Z.of_N (N_of_ascii c) + (31 * k) * 2 ^ 32) by lia.
    apply IH.
Qed.

(** Below 2^53 an integer is a binary64 value. *)
Lemma round_integer_small (z : Z) : Z.abs z < 2 ^ 53 -> round_integer z = z.
Proof.
  intros Hz. unfold round_integer, round_binary64.
  assert (Hpos : forall p : positive, Z.pos p < 2 ^ 53 -> round53 (Z.pos p) 0 = (Z.pos p, 0)).
  { intros p Hp. unfold round53. cbv zeta.
    assert (Hlog : Z.log2 (Z.pos p) < 53) by (apply Z.log2_lt_pow2; lia).
    destruct (Z.leb_spec (Z.log2 (Z.pos p) - 52) 0); [reflexivity | lia]. }
  destruct z as [| p | p].
  - reflexivity.
  - rewrite Hpos by lia. lia.
  - change (- Z.neg p) with (Z.pos p). rewrite Hpos by lia. lia.
Qed.

(** One turn of the loop on a value below 2^52: nothing is rounded. *)
Lemma hash_loop_step (c : ascii) (str : string) (h : Z) :
  Z.abs h < 2 ^ 52 ->
  hash_loop (String c str) h
  = hash_loop str (ToInt32 (31 * h + Z.of_N (N_of_ascii c))).
Proof.
  intros Hh. cbn [hash_loop].
  pose proof (ToInt32_range (ToInt32 h * 2 ^ 5)) as Ha.
  assert (Hc : 0 <= Z.of_N (N_of_ascii c) < 256).
  { pose proof (N_ascii_bounded c). lia. }
  change (2 ^ 52) with 4503599627370496 in Hh.
  change (2 ^ 31) with 2147483648 in Ha.
  rewrite (round_integer_small (ToInt32 (ToInt32 h * 2 ^ 5) - h))
    by (change (2 ^ 53) with 9007199254740992; lia).
  rewrite round_integer_small by (change (2 ^ 53) with 9007199254740992; lia).
  rewrite hash_step. reflexivity.
Qed.

Lemma hash_loop_horner (str : string) :
  forall h : Z,
    Z.abs h < 2 ^ 52 -> ToInt32 (hash_loop str h) = ToInt32 (horner31 str h).
Proof.
  induction str as [| c str IH]; intros h Hh; [reflexivity |].
  rewrite (hash_loop_step c str h Hh). cbn [horner31].
  rewrite IH.
  2:{ pose proof (ToInt32_range (31 * h + Z.of_N (N_of_ascii c))) as Hr.
      change (2 ^ 31) with 2147483648 in Hr. change (2 ^ 52) with 4503599627370496.
      lia. }
  destruct (ToInt32_repr (31 * h + Z.of_N (N_of_ascii c))) as [k Hk]. rewrite Hk.
  destruct (horner31_shift str (31 * h + Z.of_N (N_of_ascii c)) k) as [k' ->].
  apply ToInt32_shift.
Qed.

Lemma hash_loop_int32 (str : string) :
  forall h : Z, str <> EmptyString -> ToInt32 (hash_loop str h) = hash_loop str h.
Proof.
  induction str as [| c str IH]; intros h Hne; [contradiction |].
  cbn [hash_loop]. destruct str as [| c' str'].
  - cbn [hash_loop]. apply ToInt32_idem.
  - apply IH. discriminate.
Qed.

Lemma wf_hash (this : t) (str : string) (seed : Z) :
  well_formed this ->
  _hash this str seed = Some (Z.of_nat (slot this str seed)) /\
  (slot this str seed < length (bitArray this))%nat.
Proof.
  intros (Hsz & Hlen & _). unfold _hash, slot.
  destruct (Z.eqb_spec (size this) 0) as [H0 | _]; [lia |].
  pose proof (Z.rem_bound_pos (Z.abs (hash_loop str seed)) (size this)
                ltac:(lia) ltac:(lia)) as Hr.
  split; [f_equal; lia | lia].
Qed.

Lemma add_step_wf (this : t) (str : string) (seed : Z) :
  well_formed this ->
  add_step str this seed
  = {| size := size this;
       bitArray := <[slot this str seed := VNumber 1]> (bitArray this);
       hashFunctions := hashFunctions this |}
  /\ well_formed (add_step str this seed).
Proof.
  intros Hwf. destruct (wf_hash this str seed Hwf) as [Hh Hlt].
  assert (Heq : add_step str this seed
                = {| size := size this;
                     bitArray := <[slot this str seed := VNumber 1]> (bitArray this);
                     hashFunctions := hashFunctions this |}).
  { unfold add_step. cbv zeta. rewrite Hh. unfold array_set.
    rewrite Nat2Z.id. destruct (Nat.ltb_spec (slot this str seed) (length (bitArray this)));
      [reflexivity | lia]. }
  split; [exact Heq |]. rewrite Heq. destruct Hwf as (Hsz & Hlen & Hbits).
  split; [exact Hsz |]. cbn [size bitArray]. split.
  - rewrite length_insert. exact Hlen.
  - apply forallb_forall. intros v Hv. apply list_elem_of_In in Hv.
    apply list_elem_of_lookup in Hv. destruct Hv as [j Hj].
    destruct (Nat.eq_dec (slot this str seed) j) as [<- | Hne].
    + rewrite list_lookup_insert_eq in Hj by exact Hlt. injection Hj as <-. reflexivity.
    + rewrite list_lookup_insert_ne in Hj by exact Hne.
      rewrite forallb_forall in Hbits. apply Hbits.
      apply list_elem_of_In, list_elem_of_lookup. exists j. exact Hj.
Qed.

Lemma slot_size (this this' : t) (str : string) (seed : Z) :
  size this = size this' -> slot this str seed = slot this' str seed.
Proof. intros Hs. unfold slot. rewrite Hs. reflexivity. Qed.

(** What the loop of [add] leaves at each index of a well-formed
    filter. *)
Lemma fold_add_step_lookup (str : string) (seeds : list Z) :
  forall (this : t) (j : nat),
    well_formed this ->
    well_formed (fold_left (add_step str) seeds this) /\
    (((exists seed, In seed seeds /\ slot this str seed = j) /\
      bitArray (fold_left (add_step str) seeds this) !! j = Some (VNumber 1))
     \/ ((forall seed, In seed seeds -> slot this str seed <> j) /\
         bitArray (fold_left (add_step str) seeds this) !! j = bitArray this !! j)).
Proof.
  induction seeds as [| seed seeds IH]; intros this j Hwf.
  - split; [exact Hwf |]. right. split; [intros seed [] | reflexivity].
  - cbn [fold_left]. destruct (add_step_wf this str seed Hwf) as [Heq Hwf'].
    destruct (IH (add_step str this seed) j Hwf') as [Hwf'' Hcase].
    split; [exact Hwf'' |].
    assert (Hslot : forall s, slot (add_step str this seed) str s = slot this str s)
      by (intros s; apply slot_size; reflexivity).
    destruct Hcase as [[(s & Hin & Hs) Hone] | [Hnone Hsame]].
    + left. split; [| exact Hone]. exists s. rewrite <- Hslot. split; [right |]; assumption.
    + destruct (Nat.eq_dec (slot this str seed) j) as [Hj | Hj].
      * left. split; [exists seed; split; [left; reflexivity | exact Hj] |].
        rewrite Hsame, Heq. cbn [bitArray]. rewrite <- Hj.
        apply list_lookup_insert_eq. apply (wf_hash this str seed Hwf).
      * right. split.
        { intros s [<- | Hin]; [exact Hj |]. rewrite <- Hslot. apply Hnone, Hin. }
        rewrite Hsame, Heq. cbn [bitArray]. apply list_lookup_insert_ne, Hj.
Qed.

Lemma add_wf (this : t) (str : string) : well_formed this -> well_formed (add this str).
Proof. intros Hwf. apply (fold_add_step_lookup str _ this 0%nat Hwf). Qed.

Lemma add_lookup (this : t) (str : string) (j : nat) :
  well_formed this ->
  (hits this str j /\ bitArray (add this str) !! j = Some (VNumber 1))
  \/ (~ hits this str j /\ bitArray (add this str) !! j = bitArray this !! j).
Proof.
  intros Hwf. destruct (fold_add_step_lookup str (hashFunctions this) this j Hwf)
    as [_ [[Hhit Hone] | [Hnone Hsame]]].
  - left. split; assumption.
  - right. split; [| exact Hsame]. intros (s & Hin & Hs). exact (Hnone s Hin Hs).
Qed.

Lemma hits_add (this : t) (str str' : string) (j : nat) :
  hits (add this str') str j <-> hits this str j.
Proof.
  unfold hits. rewrite add_hashFunctions.
  split; intros (s & Hin & Hs); exists s; split; try exact Hin.
  - rewrite <- Hs. apply slot_size. symmetry. apply add_size.
  - rewrite <- Hs. apply slot_size. apply add_size.
Qed.

Lemma filter_eq (f g : t) :
  size f = size g -> hashFunctions f = hashFunctions g -> bitArray f = bitArray g ->
  f = g.
Proof. destruct f, g. cbn. intros -> -> ->. reflexivity. Qed.

(** Writing a 1 never makes an element read as 0. *)
Lemma array_set_not_zero (a : list value) (index index' : option Z) :
  array_is_zero a index' = false ->
  array_is_zero (array_set a index (VNumber 1)) index' = false.
Proof.
  destruct index' as [z' |]; [| reflexivity]. destruct index as [z |]; [| tauto].
  unfold array_is_zero, array_set.
  destruct (Nat.ltb_spec (Z.to_nat z) (length a)) as [Hlt | Hge].
  - destruct (Nat.eq_dec (Z.to_nat z) (Z.to_nat z')) as [<- | Hne].
    + rewrite list_lookup_insert_eq by exact Hlt. reflexivity.
    + rewrite list_lookup_insert_ne by exact Hne. tauto.
  - destruct (Nat.lt_ge_cases (Z.to_nat z') (length a)) as [Hin | Hout].
    + rewrite lookup_app_l by exact Hin. tauto.
    + intros _. rewrite lookup_app_r by exact Hout.
      destruct (Nat.lt_ge_cases (Z.to_nat z' - length a) (Z.to_nat z - length a))
        as [Hhole | Hlast].
      * rewrite lookup_app_l by (rewrite length_replicate; exact Hhole).
        rewrite lookup_replicate_2 by exact Hhole. reflexivity.
      * rewrite lookup_app_r by (rewrite length_replicate; exact Hlast).
        rewrite length_replicate.
        destruct (Z.to_nat z' - length a - (Z.to_nat z - length a))%nat as [| [| n]];
          reflexivity.
Qed.

Lemma check_loop_spec (this : t) (str : string) (seeds : list Z) :
  check_loop this str seeds = true <->
  forall seed, In seed seeds -> array_is_zero (bitArray this) (_hash this str seed) = false.
Proof.
  induction seeds as [| seed seeds IH]; cbn [check_loop].
  - split; [intros _ s [] | reflexivity].
  - destruct (array_is_zero (bitArray this) (_hash this str seed)) eqn:Hz.
    + split; [discriminate |]. intros Hall.
      rewrite (Hall seed) in Hz by (left; reflexivity). discriminate.
    + rewrite IH. split.
      * intros Hall s [<- | Hin]; [exact Hz | apply Hall, Hin].
      * intros Hall s Hin. apply Hall. right. exact Hin.
Qed.

Lemma fold_add_step_not_zero (str : string) (seeds : list Z) :
  forall (this : t) (index : option Z),
    array_is_zero (bitArray this) index = false ->
    array_is_zero (bitArray (fold_left (add_step str) seeds this)) index = false.
Proof.
  induction seeds as [| seed seeds IH]; intros this index Hz; [exact Hz |].
  cbn [fold_left]. apply IH. cbn [add_step bitArray]. apply array_set_not_zero, Hz.
Qed.

(** The contents of a well-formed filter after a sequence of adds. *)
Lemma adds_lookup (items : list string) :
  forall (this : t) (j : nat),
    well_formed this ->
    ((exists y, In y items /\ hits this y j) /\
     bitArray (fold_left add items this) !! j = Some (VNumber 1))
    \/ ((forall y, In y items -> ~ hits this y j) /\
        bitArray (fold_left add items this) !! j = bitArray this !! j).
Proof.
  induction items as [| y items IH]; intros this j Hwf.
  - right. split; [intros y [] | reflexivity].
  - cbn [fold_left].
    destruct (IH (add this y) j (add_wf this y Hwf)) as [[(z & Hin & Hz) Hone] | [Hnone Hsame]].
    + left. split; [| exact Hone]. exists z. split; [right; exact Hin |].
      apply hits_add in Hz. exact Hz.
    + destruct (add_lookup this y j Hwf) as [[Hhit H1] | [Hno H1]].
      * left. split; [exists y; split; [left; reflexivity | exact Hhit] |].
        rewrite Hsame. exact H1.
      * right. split; [| rewrite Hsame; exact H1].
        intros z [<- | Hin]; [exact Hno |].
        intros Hz. apply (Hnone z Hin). apply hits_add. exact Hz.
Qed.

(** Past 2^53 the loop rounds: for the seed 2^60 and the string ["a"]
    the subtraction gives [- 2^60] and adding 97 gives [- 2^60 + 128],
    so the index in a filter of size 100 is 28 and not the 97 of the
    polynomial. *)
Lemma hash_rounds_large_seed :
  _hash fruit_filter "a" (2 ^ 60) = Some 28
  /\ ToInt32 (horner31 "a" (2 ^ 60)) = 97
  /\ _hash fruit_filter "a" 0 = Some 97.
Proof. repeat split; vm_compute; reflexivity. Qed.

Lemma constructor_wf (sz : Z) (seeds : list Z) (this : t) :
  1 <= sz ->
  BloomFilter.constructor (Some sz) (Some seeds) = Ok this ->
  well_formed this /\ size this = sz /\ hashFunctions this = seeds
  /\ bitArray this = replicate (Z.to_nat sz) (VNumber 0).
Proof.
  intros Hsz Hnew.
  destruct (constructor_fields _ _ _ Hnew) as (Hsize & Hseeds & Hbits).
  cbn [default from_option id] in Hsize, Hseeds, Hbits.
  split; [| split; [exact Hsize | split; [exact Hseeds | exact Hbits]]].
  split; [lia |]. split.
  - rewrite Hbits, length_replicate, Hsize. reflexivity.
  - rewrite Hbits. apply forallb_forall. intros v Hv.
    apply list_elem_of_In, elem_of_replicate in Hv. destruct Hv as [-> _]. reflexivity.
Qed.

End BloomFilterMore.

Section BloomFilterProperties.
Import BloomFilter BloomFilterFacts BloomFilterInv BloomFilterMore.

(** X1.  For a string that is not empty and a seed below 2^52 in
    absolute value, where the binary64 operations of the loop round
    nothing, the hash of [_hash] before the reduction modulo the size is
    the polynomial of base 31 over the character codes, started at the
    seed, as a signed 32-bit integer; so two such seeds that agree modulo
    2^32 give the same index.  A larger seed is rounded in the first
    turn of the loop ([hash_rounds_large_seed]). *)
Theorem hash_is_polynomial (this : t) (str : string) (seed seed' : Z) :
  str <> EmptyString ->
  Z.abs seed < 2 ^ 52 ->
  Z.abs seed' < 2 ^ 52 ->
  hash_loop str seed = ToInt32 (horner31 str seed)
  /\ - 2 ^ 31 <= hash_loop str seed < 2 ^ 31
  /\ (seed mod 2 ^ 32 = seed' mod 2 ^ 32 -> _hash this str seed = _hash this str seed').
Proof.
  intros Hne Hseed Hseed'.
  assert (Hpoly : forall s, Z.abs s < 2 ^ 52 -> hash_loop str s = ToInt32 (horner31 str s)).
  { intros s Hs. rewrite <- (hash_loop_horner str s Hs). symmetry.
    apply hash_loop_int32, Hne. }
  split; [apply Hpoly, Hseed |].
  split; [rewrite (Hpoly seed Hseed); apply ToInt32_range |].
  intros Hcongr. unfold _hash. rewrite (Hpoly seed Hseed), (Hpoly seed' Hseed').
  assert (Hk : exists k, seed = seed' + k * 2 ^ 32).
  { exists (seed / 2 ^ 32 - seed' / 2 ^ 32).
    pose proof (Z.div_mod seed (2 ^ 32) ltac:(lia)).
    pose proof (Z.div_mod seed' (2 ^ 32) ltac:(lia)). lia. }
  destruct Hk as [k ->].
  destruct (horner31_shift str seed' k) as [k' ->].
  rewrite ToInt32_shift. reflexivity.
Qed.

Lemma hash_is_polynomial_witness :
  "apple"%string <> EmptyString
  /\ Z.abs 7 < 2 ^ 52
  /\ Z.abs (7 + 2 ^ 32) < 2 ^ 52
  /\ hash_loop "apple" 7 = ToInt32 (horner31 "apple" 7)
  /\ _hash fruit_filter "apple" 7 = _hash fruit_filter "apple" (7 + 2 ^ 32).
Proof.
  assert (H : "apple"%string <> EmptyString) by discriminate.
  assert (H7 : Z.abs 7 < 2 ^ 52) by reflexivity.
  assert (H7' : Z.abs (7 + 2 ^ 32) < 2 ^ 52) by reflexivity.
  split; [exact H |]. split; [exact H7 |]. split; [exact H7' |].
  destruct (hash_is_polynomial fruit_filter "apple" 7 (7 + 2 ^ 32) H H7 H7')
    as (H1 & _ & H3).
  split; [exact H1 | apply H3; vm_compute; reflexivity].
Defined.

(** X2.  The constructor throws a [RangeError] exactly for a size below 0
    or of 2^32 and more; a filter it builds with a size of at least 1 and
    at least one seed is well formed and answers [false] to every
    [check]. *)
Theorem fresh_filter_is_empty (sz : Z) (seeds : list Z) :
  (BloomFilter.constructor (Some sz) (Some seeds) = Throw RangeError
   <-> sz < 0 \/ 2 ^ 32 <= sz)
  /\ (forall this : t,
        BloomFilter.constructor (Some sz) (Some seeds) = Ok this ->
        1 <= sz -> seeds <> [] ->
        well_formed this /\ forall x : string, check this x = false).
Proof.
  split.
  - cbv beta iota zeta delta [BloomFilter.constructor from_option id].
    destruct (Z.ltb_spec sz 0) as [Hlo | Hlo];
      destruct (Z.leb_spec (2 ^ 32) sz) as [Hhi | Hhi]; cbn [orb];
      split; intros Hcase; try reflexivity; try discriminate Hcase; lia.
  - intros this Hnew Hsz Hne.
    destruct (constructor_wf sz seeds this Hsz Hnew) as (Hwf & Hsize & Hseeds & Hbits).
    split; [exact Hwf |]. intros x. unfold check. rewrite Hseeds.
    destruct seeds as [| seed seeds]; [contradiction |]. cbn [check_loop].
    destruct (wf_hash this x seed Hwf) as [Hh Hlt]. rewrite Hh.
    unfold array_is_zero. rewrite Nat2Z.id, Hbits.
    rewrite lookup_replicate_2; [reflexivity |].
    rewrite Hbits, length_replicate in Hlt. exact Hlt.
Qed.

Lemma fresh_filter_is_empty_witness :
  BloomFilter.constructor (Some 100) (Some [1; 7]) = Ok fruit_filter
  /\ 1 <= 100
  /\ [1; 7] <> @nil Z
  /\ check fruit_filter "apple" = false.
Proof.
  assert (H1 : BloomFilter.constructor (Some 100) (Some [1; 7]) = Ok fruit_filter)
    by (vm_compute; reflexivity).
  assert (H2 : 1 <= 100) by lia.
  assert (H3 : [1; 7] <> @nil Z) by discriminate.
  split; [exact H1 |]. split; [exact H2 |]. split; [exact H3 |].
  exact (proj2 (proj2 (fresh_filter_is_empty 100 [1; 7]) fruit_filter H1 H2 H3)
           "apple"%string).
Defined.

(** X3.  [add] keeps a filter well formed: after any sequence of [add]
    the size, the seeds and the length of the bit array are what they
    were, and every element is still 0 or 1. *)
Theorem adds_keep_well_formed (this : t) (items : list string) :
  well_formed this ->
  well_formed (fold_left add items this)
  /\ size (fold_left add items this) = size this
  /\ hashFunctions (fold_left add items this) = hashFunctions this
  /\ length (bitArray (fold_left add items this)) = length (bitArray this).
Proof.
  intros Hwf.
  assert (Hinv : forall l f, well_formed f -> well_formed (fold_left add l f)).
  { induction l as [| y l IH]; intros f Hf; [exact Hf |].
    cbn [fold_left]. apply IH, add_wf, Hf. }
  pose proof (Hinv items this Hwf) as Hwf'.
  destruct (adds_fields items this) as [Hs Hh].
  split; [exact Hwf' |]. split; [exact Hs |]. split; [exact Hh |].
  destruct Hwf as (_ & Hlen & _). destruct Hwf' as (_ & Hlen' & _).
  rewrite Hlen, Hlen', Hs. reflexivity.
Qed.

Lemma adds_keep_well_formed_witness :
  well_formed fruit_filter
  /\ well_formed (fold_left add ["apple"; "banana"]%string fruit_filter)
  /\ length (bitArray (fold_left add ["apple"; "banana"]%string fruit_filter))
     = 100%nat.
Proof.
  assert (H : well_formed fruit_filter)
    by (split; [vm_compute; discriminate | split; vm_compute; reflexivity]).
  split; [exact H |].
  destruct (adds_keep_well_formed fruit_filter ["apple"; "banana"]%string H)
    as (Hwf & _ & _ & Hlen).
  split; [exact Hwf |]. rewrite Hlen. vm_compute. reflexivity.
Defined.

(** X4.  On a well-formed filter [add] is idempotent and two [add]
    commute: the filter after a sequence of [add] depends only on the
    set of strings added. *)
Theorem add_idempotent_commutative (this : t) (x y : string) :
  well_formed this ->
  add (add this x) x = add this x
  /\ add (add this x) y = add (add this y) x.
Proof.
  intros Hwf.
  pose proof (add_wf this x Hwf) as Hwfx. pose proof (add_wf this y Hwf) as Hwfy.
  split; apply filter_eq; rewrite ?add_size, ?add_hashFunctions; try reflexivity.
  - apply list_eq. intros j.
    destruct (add_lookup (add this x) x j Hwfx) as [[Hhit H1] | [Hno H1]]; rewrite H1.
    + apply hits_add in Hhit.
      destruct (add_lookup this x j Hwf) as [[_ H2] | [Hno _]]; [| contradiction].
      symmetry. exact H2.
    + reflexivity.
  - apply list_eq. intros j.
    destruct (add_lookup (add this x) y j Hwfx) as [[Hy H1] | [Hy H1]];
      destruct (add_lookup (add this y) x j Hwfy) as [[Hx H2] | [Hx H2]];
      rewrite H1, H2; rewrite hits_add in Hx, Hy.
    + reflexivity.
    + destruct (add_lookup this y j Hwf) as [[_ H3] | [Hno _]]; [| contradiction].
      symmetry. exact H3.
    + destruct (add_lookup this x j Hwf) as [[_ H3] | [Hno _]]; [| contradiction].
      exact H3.
    + destruct (add_lookup this x j Hwf) as [[Hx' _] | [_ H3]]; [contradiction |].
      destruct (add_lookup this y j Hwf) as [[Hy' _] | [_ H4]]; [contradiction |].
      rewrite H3, H4. reflexivity.
Qed.

Lemma add_idempotent_commutative_witness :
  well_formed fruit_filter
  /\ add (add fruit_filter "apple") "apple" = add fruit_filter "apple"
  /\ add (add fruit_filter "apple") "banana" = add (add fruit_filter "banana") "apple".
Proof.
  assert (H : well_formed fruit_filter)
    by (split; [vm_compute; discriminate | split; vm_compute; reflexivity]).
  split; [exact H |].
  exact (add_idempotent_commutative fruit_filter "apple" "banana" H).
Defined.

(** X5.  In every state of a filter, also one that the constructor
    cannot build, a [check] that answers [true] answers [true] after any
    further sequence of [add]: [add] never clears an element. *)
Theorem check_survives_adds (this : t) (items : list string) (x : string) :
  check this x = true -> check (fold_left add items this) x = true.
Proof.
  revert this. induction items as [| y items IH]; intros this Hcheck; [exact Hcheck |].
  cbn [fold_left]. apply IH. unfold check in *.
  rewrite add_hashFunctions. rewrite check_loop_spec in *.
  intros seed Hin. rewrite (hash_size (add this y) this x seed (add_size this y)).
  unfold add. apply fold_add_step_not_zero, Hcheck, Hin.
Qed.

Lemma check_survives_adds_witness :
  check (add fruit_filter "apple") "apple" = true
  /\ check (fold_left add ["banana"; "cherry"]%string (add fruit_filter "apple"))
       "apple" = true.
Proof.
  assert (H : check (add fruit_filter "apple") "apple" = true)
    by (vm_compute; reflexivity).
  split; [exact H |].
  exact (check_survives_adds (add fruit_filter "apple") ["banana"; "cherry"]%string
           "apple" H).
Defined.

(** X6.  A filter of size 0 is built without an error; its bit array is
    empty and stays empty under [add], and [check] answers [true] for
    every string, whether it was added or not. *)
Theorem size_zero_filter (seeds : option (list Z)) (this : t)
    (items : list string) (x : string) :
  BloomFilter.constructor (Some 0) seeds = Ok this ->
  bitArray this = []
  /\ bitArray (fold_left add items this) = []
  /\ check (fold_left add items this) x = true.
Proof.
  intros Hnew. destruct (constructor_fields _ _ _ Hnew) as (Hsize & _ & Hbits).
  cbn in Hsize, Hbits.
  assert (Hnone : forall f s seed, size f = 0 -> _hash f s seed = None).
  { intros f s seed Hf. unfold _hash. rewrite Hf. reflexivity. }
  assert (Hadd : forall f y, size f = 0 -> bitArray (add f y) = bitArray f).
  { intros f y Hf. unfold add. generalize (hashFunctions f) as l.
    intros l. revert f Hf. induction l as [| s l IH]; intros f Hf; [reflexivity |].
    cbn [fold_left]. rewrite IH by exact Hf.
    cbn [add_step bitArray]. rewrite (Hnone f y s Hf). reflexivity. }
  assert (Hadds : forall l f, size f = 0 -> bitArray (fold_left add l f) = bitArray f).
  { induction l as [| y l IH]; intros f Hf; [reflexivity |].
    cbn [fold_left]. rewrite IH by (rewrite add_size; exact Hf). apply Hadd, Hf. }
  split; [exact Hbits |]. split; [rewrite Hadds, Hbits by exact Hsize; reflexivity |].
  unfold check. apply check_loop_spec. intros seed _.
  rewrite Hnone; [reflexivity |]. rewrite (proj1 (adds_fields items this)). exact Hsize.
Qed.

Lemma size_zero_filter_witness :
  BloomFilter.constructor (Some 0) (Some [1; 7]) = Ok empty_filter
  /\ bitArray (fold_left add ["apple"%string] empty_filter) = []
  /\ check (fold_left add ["apple"%string] empty_filter) "pear" = true.
Proof.
  assert (H : BloomFilter.constructor (Some 0) (Some [1; 7]) = Ok empty_filter)
    by (vm_compute; reflexivity).
  split; [exact H |].
  exact (proj2 (size_zero_filter (Some [1; 7]) empty_filter ["apple"%string]
                  "pear" H)).
Defined.

(** X7.  The exact answer of [check] on a filter built with a size of at
    least 1: after a sequence of [add], [check(x)] is true if and only
    if for every seed the element of [x] is the element of some added
    string under some seed.  A false positive is a string whose elements
    are all covered by those of the added strings. *)
Theorem check_exactly (sz : Z) (seeds : list Z) (this : t)
    (items : list string) (x : string) :
  1 <= sz ->
  BloomFilter.constructor (Some sz) (Some seeds) = Ok this ->
  (check (fold_left add items this) x = true <->
   forall seed : Z, In seed seeds ->
     exists (y : string) (seed' : Z),
       In y items /\ In seed' seeds /\ slot this y seed' = slot this x seed).
Proof.
  intros Hsz Hnew.
  destruct (constructor_wf sz seeds this Hsz Hnew) as (Hwf & Hsize & Hseeds & Hbits).
  set (final := fold_left add items this).
  assert (Hfs : size final = size this) by apply adds_fields.
  assert (Hfh : hashFunctions final = seeds).
  { unfold final. rewrite (proj2 (adds_fields items this)). exact Hseeds. }
  unfold check. rewrite Hfh, check_loop_spec.
  assert (Hslot : forall seed,
    array_is_zero (bitArray final) (_hash final x seed) = false <->
    exists y seed', In y items /\ In seed' seeds /\ slot this y seed' = slot this x seed).
  { intros seed. rewrite (hash_size final this x seed Hfs).
    destruct (wf_hash this x seed Hwf) as [Hh Hlt]. rewrite Hh.
    unfold array_is_zero, final. rewrite Nat2Z.id.
    destruct (adds_lookup items this (slot this x seed) Hwf)
      as [[(y & Hin & s' & Hs' & Heq) Hone] | [Hnone Hsame]].
    - rewrite Hone. split; [intros _ | reflexivity].
      exists y, s'. rewrite Hseeds in Hs'. auto.
    - rewrite Hsame, Hbits.
      rewrite lookup_replicate_2
        by (rewrite Hbits, length_replicate in Hlt; exact Hlt).
      split; [discriminate |]. intros (y & s' & Hin & Hs' & Heq).
      exfalso. apply (Hnone y Hin). exists s'. rewrite Hseeds. auto. }
  split.
  - intros Hall seed Hin. apply Hslot, Hall, Hin.
  - intros Hall seed Hin. apply Hslot, Hall, Hin.
Qed.

Lemma check_exactly_witness :
  1 <= 100
  /\ BloomFilter.constructor (Some 100) (Some [1; 7]) = Ok fruit_filter
  /\ (check (fold_left add ["apple"%string] fruit_filter) "pear" = true <->
      forall seed : Z, In seed [1; 7] ->
        exists (y : string) (seed' : Z),
          In y ["apple"%string] /\ In seed' [1; 7]
          /\ slot fruit_filter y seed' = slot fruit_filter "pear" seed).
Proof.
  assert (H1 : 1 <= 100) by lia.
  assert (H2 : BloomFilter.constructor (Some 100) (Some [1; 7]) = Ok fruit_filter)
    by (vm_compute; reflexivity).
  split; [exact H1 |]. split; [exact H2 |].
  exact (check_exactly 100 [1; 7] fruit_filter ["apple"%string] "pear" H1 H2).
Defined.

End BloomFilterProperties.

(** ** mask.js: the results of [mask] beyond the formula *)

Module MaskMore.
Import NumberFacts StringFacts MaskFacts.

Lemma round53_pos (m e : Z) : 0 < m -> 0 < fst (round53 m e).
Proof.
  intros Hm. destruct (round53_spec m e Hm) as (q & d & -> & Hd & _ & _ & Hlo).
  cbn [fst]. assert (H2d : 0 < 2 ^ d) by (apply Z.pow_pos_nonneg; lia).
  change (2 ^ 53) with 9007199254740992 in Hlo. nia.
Qed.

Lemma Math_round_nonneg (q e : Z) :
  0 < q -> exists L : Z, Math_round (Finite q e) = Finite L 0 /\ 0 <= L.
Proof.
  intros Hq. unfold Math_round. destruct (Z.leb_spec 0 e) as [He | He].
  - eexists. split; [reflexivity |]. apply Z.mul_nonneg_nonneg; [lia |].
    apply Z.pow_nonneg. lia.
  - eexists. split; [reflexivity |].
    assert (0 < 2 ^ (- e)) by (apply Z.pow_pos_nonneg; lia).
    assert (0 < 2 ^ (- e + 1)) by (apply Z.pow_pos_nonneg; lia).
    apply Z.div_pos; lia.
Qed.

(** The masked length of a positive hidden span is [NaN] or an integer
    that is not negative, whatever the key and however long the span. *)
Lemma maskedPartLength_nonneg (h : Z) (key : string) :
  0 < h ->
  maskedPartLength h key = NaN
  \/ exists L : Z, maskedPartLength h key = Finite L 0 /\ 0 <= L.
Proof.
  intros Hh. destruct (inherited key) eqn:Hkey.
  - left. apply maskRatio_inherited, Hkey.
  - right. unfold maskedPartLength. rewrite (maskRatio_number key Hkey).
    assert (Hgen : forall c e, 0 < c ->
      exists L, Math_round (mul (of_Z h) (Finite c e)) = Finite L 0 /\ 0 <= L).
    { intros c e Hc. unfold mul, of_Z, round_binary64.
      assert (Hm : 0 < h * c) by nia.
      destruct (h * c) as [| p | p] eqn:Hp; try lia. rewrite <- Hp.
      pose proof (round53_pos (h * c) (0 + e) ltac:(lia)) as Hq.
      destruct (round53 (h * c) (0 + e)) as [q e']. cbn [fst] in Hq.
      apply Math_round_nonneg, Hq. }
    destruct (String.eqb key "low"); [apply Hgen; reflexivity |].
    destruct (String.eqb key "high"); apply Hgen; reflexivity.
Qed.

Lemma spec_maskedLength_le (h : Z) (key : string) :
  0 < h -> Spec.maskedLength h key <= h.
Proof.
  intros Hh. rewrite spec_maskedLength.
  destruct (String.eqb key "low"); [| destruct (String.eqb key "high")].
  - euclid (3 * h + 5) 10. lia.
  - lia.
  - euclid (7 * h + 5) 10. lia.
Qed.

Lemma length_repeat_string_le (c : string) (k : nat) :
  (String.length c <= 1)%nat -> (String.length (repeat_string c k) <= k)%nat.
Proof.
  intros Hc. induction k as [| k IH]; [reflexivity |].
  cbn [repeat_string]. rewrite length_append. lia.
Qed.

(** The characters of a result made of a beginning of [s], [k] copies of
    [c] and an end of [s]. *)
Lemma shape_positions (s : string) (c : ascii) (vs ve : Z) (k : nat) :
  0 <= vs -> 0 <= ve ->
  vs + Z.of_nat k + ve <= Z.of_nat (String.length s) ->
  let n := Z.of_nat (String.length s) in
  let r := String.append (Spec.slice s 0 vs)
             (String.append (repeat_string (String c EmptyString) k)
                (Spec.slice s (n - ve) n)) in
  Z.of_nat (String.length r) = vs + Z.of_nat k + ve /\
  (forall i : nat, Z.of_nat i < vs -> String.get i r = String.get i s) /\
  (forall i : nat, vs <= Z.of_nat i < vs + Z.of_nat k -> String.get i r = Some c) /\
  (forall i : nat,
      vs + Z.of_nat k <= Z.of_nat i < vs + Z.of_nat k + ve ->
      String.get i r = String.get (i + Z.to_nat (n - vs - Z.of_nat k - ve)) s).
Proof.
  intros Hvs Hve Hfit n r. subst r.
  remember (Z.of_nat (String.length s)) as m eqn:Hm. subst n.
  assert (Hp : Z.of_nat (String.length (Spec.slice s 0 vs)) = vs).
  { rewrite length_slice by lia. lia. }
  assert (Hs : String.length (repeat_string (String c EmptyString) k) = k)
    by apply length_repeat_char.
  assert (Hx : Z.of_nat (String.length (Spec.slice s (m - ve) m)) = ve).
  { rewrite length_slice by lia. lia. }
  split; [| split; [| split]].
  - rewrite !length_append. lia.
  - intros i Hi. rewrite get_append_l by lia. rewrite get_slice by lia. f_equal. lia.
  - intros i Hi. rewrite get_append_r by lia. rewrite get_append_l by lia.
    apply get_repeat_char. lia.
  - intros i Hi. rewrite get_append_r by lia. rewrite get_append_r by lia.
    rewrite get_slice by lia. f_equal. lia.
Qed.

End MaskMore.

Section MaskProperties.
Import NumberFacts StringFacts MaskFacts MaskMore.

(** X8.  For a string shorter than 2^49 characters, a mask character
    that is a string of at most one character, and numbers of visible
    characters that are not negative, [mask] throws nothing, whatever
    the sensitivity key, inherited ones included, and whether or not the
    visible parts cover the string; and its result is never longer than
    the input, so that it fits a string wherever the input does.  The
    copy in [index.js] returns the same. *)
Theorem mask_never_lengthens (s : string) (a : options_arg) (o : options)
    (c : string) :
  destructure a = Ok o ->
  char_of o = Literal c ->
  (String.length c <= 1)%nat ->
  0 <= start_of o -> 0 <= end_of o ->
  Z.of_nat (String.length s) < 2 ^ 49 ->
  exists r : string,
    mask (VString s) a = Ok r
    /\ stringUtils.mask (VString s) a = Ok r
    /\ (String.length r <= String.length s)%nat.
Proof.
  intros Ha Hchar Hc Hvs Hve Hlen.
  change (stringUtils.mask (VString s) a) with (mask (VString s) a).
  set (n := Z.of_nat (String.length s)) in *.
  destruct (Z.lt_ge_cases (start_of o + end_of o) n) as [Hlt | Hge].
  - set (h := n - start_of o - end_of o).
    assert (Hk : exists k : nat,
      Z.of_nat k <= h /\
      mask (VString s) a
      = Ok (String.append (Spec.slice s 0 (start_of o))
              (String.append (repeat_string c k)
                 (Spec.slice s (n - end_of o) n)))).
    { destruct (inherited (key_of o)) eqn:Hkey.
      - exists 0%nat. split; [unfold h; lia |].
        apply (mask_inherited_key s a o _ Ha Hchar Hkey Hvs Hve Hlt).
      - destruct (maskedPartLength_spec h (key_of o)) as (L & HL & HL0 & Hnear & _);
          [unfold h; change (2 ^ 49) with 562949953421312 in *; lia | exact Hkey |].
        exists (Z.to_nat L). split.
        + pose proof (spec_maskedLength_le h (key_of o) ltac:(unfold h; lia)). lia.
        + apply (mask_literal s a o _ L Ha Hchar Hvs Hve Hlt HL HL0). }
    destruct Hk as (k & Hkh & Hmask). eexists. split; [exact Hmask |].
    split; [exact Hmask |].
    pose proof (length_repeat_string_le c k Hc) as Hrep.
    assert (Hp : Z.of_nat (String.length (Spec.slice s 0 (start_of o))) = start_of o).
    { rewrite length_slice by (fold n; lia). lia. }
    assert (Hx : Z.of_nat (String.length (Spec.slice s (n - end_of o) n)) = end_of o).
    { rewrite length_slice by (fold n; lia). lia. }
    rewrite !length_append. unfold h in Hkh. unfold n in *. lia.
  - exists s. assert (Hmask : mask (VString s) a = Ok s).
    { unfold mask. rewrite Ha. cbn [bind]. cbv zeta.
      change (default 2 (visibleStart o)) with (start_of o).
      change (default 2 (visibleEnd o)) with (end_of o).
      destruct (Z.geb_spec (start_of o + end_of o) (Z.of_nat (String.length s)));
        [reflexivity | unfold n in Hge; lia]. }
    split; [exact Hmask |]. split; [exact Hmask | lia].
Qed.

Lemma mask_never_lengthens_witness :
  destructure (OptionsObject low_options) = Ok low_options
  /\ char_of low_options = Literal "x"
  /\ (String.length "x" <= 1)%nat
  /\ 0 <= start_of low_options
  /\ 0 <= end_of low_options
  /\ Z.of_nat (String.length card_number) < 2 ^ 49
  /\ exists r : string,
       mask (VString card_number) (OptionsObject low_options) = Ok r
       /\ stringUtils.mask (VString card_number) (OptionsObject low_options) = Ok r
       /\ (String.length r <= String.length card_number)%nat.
Proof.
  assert (H1 : destructure (OptionsObject low_options) = Ok low_options) by reflexivity.
  assert (H2 : char_of low_options = Literal "x") by reflexivity.
  assert (H3 : (String.length "x" <= 1)%nat) by (vm_compute; lia).
  assert (H4 : 0 <= start_of low_options) by (vm_compute; discriminate).
  assert (H5 : 0 <= end_of low_options) by (vm_compute; discriminate).
  assert (H6 : Z.of_nat (String.length card_number) < 2 ^ 49) by reflexivity.
  split; [exact H1 |]. split; [exact H2 |]. split; [exact H3 |]. split; [exact H4 |].
  split; [exact H5 |]. split; [exact H6 |].
  exact (mask_never_lengthens card_number (OptionsObject low_options)
           low_options "x"%string H1 H2 H3 H4 H5 H6).
Defined.

(** X9.  For a hidden span below 2^49 the three levels are ordered:
    ["low"] masks at most as many characters as ["medium"], ["medium"]
    at least one and at most the span, ["high"] the whole span; ["low"]
    masks nothing exactly for a span of 1; and every key that is neither
    ["low"] nor ["high"] nor inherited from [Object.prototype] masks as
    ["medium"] does. *)
Theorem sensitivity_levels (h : Z) :
  0 < h < 2 ^ 49 ->
  exists lo me : Z,
    maskedPartLength h "low" = Finite lo 0 /\
    maskedPartLength h "medium" = Finite me 0 /\
    maskedPartLength h "high" = Finite h 0 /\
    0 <= lo <= me /\ 1 <= me <= h /\ (lo = 0 <-> h = 1) /\
    (forall key : string,
        inherited key = false -> key <> "low"%string -> key <> "high"%string ->
        maskedPartLength h key = Finite me 0).
Proof.
  intros Hh.
  assert (Hlo : maskedPartLength h "low" = Finite ((3 * h + 5) / 10) 0)
    by (apply product_low, Hh).
  assert (Hhi : maskedPartLength h "high" = Finite h 0).
  { apply product_high. change (2 ^ 49) with 562949953421312 in Hh.
    change (2 ^ 53) with 9007199254740992. lia. }
  destruct (product_medium h Hh) as (me & Hme & Hnear & Hexact).
  exists ((3 * h + 5) / 10), me.
  split; [exact Hlo |]. split; [exact Hme |]. split; [exact Hhi |].
  assert (Hbounds : 0 <= (3 * h + 5) / 10 <= me /\ 1 <= me <= h /\
                    ((3 * h + 5) / 10 = 0 <-> h = 1)).
  { clear Hlo Hhi Hme. destruct Hh as [Hh _].
    euclid (7 * h + 5) 10. euclid (3 * h + 5) 10. euclid h 10. lia. }
  destruct Hbounds as (H1 & H2 & H3).
  split; [exact H1 |]. split; [exact H2 |]. split; [exact H3 |].
  intros key Hkey Hnl Hnh. unfold maskedPartLength.
  rewrite (maskRatio_number key Hkey).
  destruct (String.eqb_spec key "low"); [contradiction |].
  destruct (String.eqb_spec key "high"); [contradiction |]. exact Hme.
Qed.

Lemma sensitivity_levels_witness :
  0 < 10 < 2 ^ 49
  /\ exists lo me : Z,
       maskedPartLength 10 "low" = Finite lo 0
       /\ maskedPartLength 10 "medium" = Finite me 0
       /\ maskedPartLength 10 "high" = Finite 10 0
       /\ 0 <= lo <= me /\ 1 <= me <= 10.
Proof.
  assert (H : 0 < 10 < 2 ^ 49) by (split; reflexivity).
  split; [exact H |].
  destruct (sensitivity_levels 10 H) as (lo & me & H1 & H2 & H3 & H4 & H5 & _).
  exists lo, me. split; [exact H1 |]. split; [exact H2 |]. split; [exact H3 |].
  split; [exact H4 | exact H5].
Defined.

(** X10.  The shape of every result with a one-character mask, for
    counts of visible characters that are not negative and leave a
    hidden span, for every sensitivity key: the result is the first
    [visibleStart] characters of the input, then [k] copies of the mask
    character with [k] at most the hidden span, then the last
    [visibleEnd] characters of the input.  It is shorter than the input
    by the span minus [k], and nothing outside the hidden span is
    changed. *)
Theorem mask_shape (s : string) (a : options_arg) (o : options) (c : ascii) :
  destructure a = Ok o ->
  char_of o = Literal (String c EmptyString) ->
  0 <= start_of o -> 0 <= end_of o ->
  start_of o + end_of o < Z.of_nat (String.length s) ->
  Z.of_nat (String.length s) < 2 ^ 49 ->
  let n := Z.of_nat (String.length s) in
  let h := n - start_of o - end_of o in
  exists (k : nat) (r : string),
    mask (VString s) a = Ok r /\
    Z.of_nat k <= h /\
    Z.of_nat (String.length r) = n - (h - Z.of_nat k) /\
    (forall i : nat, Z.of_nat i < start_of o -> String.get i r = String.get i s) /\
    (forall i : nat,
        start_of o <= Z.of_nat i < start_of o + Z.of_nat k -> String.get i r = Some c) /\
    (forall i : nat,
        start_of o + Z.of_nat k <= Z.of_nat i < Z.of_nat (String.length r) ->
        String.get i r = String.get (i + Z.to_nat (h - Z.of_nat k)) s).
Proof.
  intros Ha Hchar Hvs Hve Hlt Hlen n h.
  assert (Hk : exists k : nat,
    Z.of_nat k <= h /\
    mask (VString s) a
    = Ok (String.append (Spec.slice s 0 (start_of o))
            (String.append (repeat_string (String c EmptyString) k)
               (Spec.slice s (n - end_of o) n)))).
  { destruct (inherited (key_of o)) eqn:Hkey.
    - exists 0%nat. split; [unfold h; lia |].
      apply (mask_inherited_key s a o _ Ha Hchar Hkey Hvs Hve Hlt).
    - destruct (maskedPartLength_spec h (key_of o)) as (L & HL & HL0 & Hnear & _);
        [unfold h, n; change (2 ^ 49) with 562949953421312 in *; lia | exact Hkey |].
      exists (Z.to_nat L). split.
      + pose proof (spec_maskedLength_le h (key_of o) ltac:(unfold h, n; lia)). lia.
      + apply (mask_literal s a o _ L Ha Hchar Hvs Hve Hlt HL HL0). }
  destruct Hk as (k & Hkh & Hmask). eexists k, _. split; [exact Hmask |].
  split; [exact Hkh |].
  destruct (shape_positions s c (start_of o) (end_of o) k Hvs Hve
              ltac:(unfold h, n in Hkh; lia)) as (H1 & H2 & H3 & H4).
  fold n in H1, H2, H3, H4 |- *.
  split; [rewrite H1; unfold h; lia |]. split; [exact H2 |]. split; [exact H3 |].
  intros i Hi. rewrite H4 by (rewrite H1 in Hi; lia).
  f_equal. unfold h. lia.
Qed.

Lemma mask_shape_witness :
  destructure (OptionsObject star_options) = Ok star_options
  /\ char_of star_options = Literal "*"
  /\ 0 <= start_of star_options
  /\ 0 <= end_of star_options
  /\ start_of star_options + end_of star_options < Z.of_nat (String.length card_number)
  /\ Z.of_nat (String.length card_number) < 2 ^ 49
  /\ exists (k : nat) (r : string),
       mask (VString card_number) (OptionsObject star_options) = Ok r
       /\ Z.of_nat k <= 14
       /\ Z.of_nat (String.length r) = 19 - (14 - Z.of_nat k).
Proof.
  assert (H1 : destructure (OptionsObject star_options) = Ok star_options) by reflexivity.
  assert (H2 : char_of star_options = Literal "*") by reflexivity.
  assert (H3 : 0 <= start_of star_options) by (vm_compute; discriminate).
  assert (H4 : 0 <= end_of star_options) by (vm_compute; discriminate).
  assert (H5 : start_of star_options + end_of star_options
               < Z.of_nat (String.length card_number)) by reflexivity.
  assert (H6 : Z.of_nat (String.length card_number) < 2 ^ 49) by reflexivity.
  split; [exact H1 |]. split; [exact H2 |]. split; [exact H3 |]. split; [exact H4 |].
  split; [exact H5 |]. split; [exact H6 |].
  destruct (mask_shape card_number (OptionsObject star_options) star_options "*"%char
              H1 H2 H3 H4 H5 H6) as (k & r & Hm & Hk & Hlen & _).
  exists k, r. split; [exact Hm |]. split; [exact Hk | exact Hlen].
Defined.

End MaskProperties.

(** ** cli.js: the loop of [redactFile] over the rules *)

Section RedactMore.

Variable R : Type.
Variable RegExp_new : string -> result R.
Variable matches : R -> string -> list piece.
Variable callee : value -> options_arg -> result string.

Local Abbreviation step := (apply_rule R RegExp_new matches callee).
Local Abbreviation run := (redact R RegExp_new matches callee).

(** The reports of a run are appended to the reports so far. *)
Lemma fold_rules_split (rules : list (string * options_arg)) :
  forall (text : string) (errors : list string),
    fold_left step rules (text, errors)
    = (fst (fold_left step rules (text, [])),
       errors ++ snd (fold_left step rules (text, []))).
Proof.
  induction rules as [| [key rule] rules IH]; intros text errors.
  - cbn [fold_left fst snd]. rewrite app_nil_r. reflexivity.
  - cbn [fold_left]. unfold apply_rule at 2 4 6.
    destruct (let* regex := RegExp_new key in _) as [replaced | e].
    + apply IH.
    + rewrite (IH text (errors ++ [key])), (IH text ([] ++ [key])).
      cbn [fst snd]. rewrite <- app_assoc. reflexivity.
Qed.

Lemma redact_app (rules1 rules2 : list (string * options_arg)) (data : string) :
  run (rules1 ++ rules2) data
  = (fst (run rules2 (fst (run rules1 data))),
     snd (run rules1 data) ++ snd (run rules2 (fst (run rules1 data)))).
Proof.
  unfold redact. rewrite fold_left_app.
  destruct (fold_left step rules1 (data, [])) as [t1 e1]. cbn [fst snd].
  apply fold_rules_split.
Qed.

Lemma redact_errors_sublist (rules : list (string * options_arg)) (data : string) :
  sublist (snd (run rules data)) (map fst rules).
Proof.
  revert data. induction rules as [| [key rule] rules IH]; intros data.
  - apply sublist_nil_l.
  - change ((key, rule) :: rules) with ([(key, rule)] ++ rules).
    rewrite redact_app. cbn [snd map app fst].
    change (key :: map fst rules) with ([key] ++ map fst rules).
    apply sublist_app; [| apply IH].
    unfold redact. cbn [fold_left]. unfold apply_rule.
    destruct (let* regex := RegExp_new key in _); cbn [snd app].
    + apply sublist_nil_l.
    + reflexivity.
Qed.

(** A replacement in which the callback is never called. *)
Lemma replace_pieces_no_match (ps : list piece) (f : string -> result string) :
  forallb (fun p => negb (is_match p)) ps = true ->
  replace_pieces ps f = Ok (pieces_text ps).
Proof.
  induction ps as [| [s | m] ps IH]; cbn [forallb is_match negb andb]; intros Hno.
  - reflexivity.
  - cbn [replace_pieces pieces_text]. rewrite IH by exact Hno. reflexivity.
  - discriminate.
Qed.

(** A replacement whose callback throws at every match. *)
Lemma replace_pieces_throwing (ps : list piece) (f : string -> result string) (e : error) :
  (forall m, f m = Throw e) ->
  existsb is_match ps = true ->
  replace_pieces ps f = Throw e.
Proof.
  intros Hf. induction ps as [| [s | m] ps IH]; cbn [existsb is_match orb]; intros Hsome.
  - discriminate.
  - cbn [replace_pieces]. rewrite IH by exact Hsome. reflexivity.
  - cbn [replace_pieces]. rewrite Hf. reflexivity.
Qed.

Lemma apply_rule_no_match (text : string) (errors : list string) (key : string)
    (rule : options_arg) (regex : R) :
  RegExp_new key = Ok regex ->
  existsb is_match (matches regex text) = false ->
  step (text, errors) (key, rule) = (pieces_text (matches regex text), errors).
Proof.
  intros Hkey Hno. unfold apply_rule. rewrite Hkey. cbn [bind]. unfold replace.
  rewrite replace_pieces_no_match; [reflexivity |].
  induction (matches regex text) as [| p ps IH]; [reflexivity |].
  cbn [existsb forallb] in *. apply orb_false_iff in Hno. destruct Hno as [-> Hps].
  cbn [negb andb]. apply IH, Hps.
Qed.

Lemma apply_rule_throwing (text : string) (errors : list string) (key : string)
    (rule : options_arg) (regex : R) (e : error) :
  RegExp_new key = Ok regex ->
  (forall m, callee (VString m) rule = Throw e) ->
  existsb is_match (matches regex text) = true ->
  step (text, errors) (key, rule) = (text, errors ++ [key]).
Proof.
  intros Hkey Hf Hsome. unfold apply_rule. rewrite Hkey. cbn [bind]. unfold replace.
  rewrite (replace_pieces_throwing _ _ e); [reflexivity | exact Hf | exact Hsome].
Qed.

(** Rules that match nothing, or at whose matches the callee throws,
    leave the text as it is. *)
Lemma fold_rules_unchanged (rules : list (string * options_arg)) (data : string) :
  (forall key regex, RegExp_new key = Ok regex ->
     pieces_text (matches regex data) = data) ->
  (forall key rule regex,
      In (key, rule) rules -> RegExp_new key = Ok regex ->
      existsb is_match (matches regex data) = false
      \/ exists e, forall m, callee (VString m) rule = Throw e) ->
  fst (run rules data) = data.
Proof.
  intros Hengine.
  unfold redact. generalize (@nil string) as errors.
  induction rules as [| [key rule] rules IH]; intros errors Hrules; [reflexivity |].
  cbn [fold_left].
  assert (Hstep : fst (apply_rule R RegExp_new matches callee (data, errors) (key, rule))
                  = data).
  { destruct (RegExp_new key) as [regex | e] eqn:Hkey.
    - destruct (existsb is_match (matches regex data)) eqn:Hm.
      + destruct (Hrules key rule regex ltac:(left; reflexivity) Hkey)
          as [Hno | [e He]]; [congruence |].
        rewrite (apply_rule_throwing data errors key rule
                   regex e Hkey He Hm). reflexivity.
      + rewrite (apply_rule_no_match data errors key rule
                   regex Hkey Hm). cbn [fst]. apply (Hengine key regex Hkey).
    - unfold apply_rule. rewrite Hkey. reflexivity. }
  destruct (apply_rule R RegExp_new matches callee (data, errors) (key, rule))
    as [t1 e1]. cbn [fst] in Hstep. subst t1.
  apply IH. intros k r regex Hin. apply Hrules. right. exact Hin.
Qed.

End RedactMore.

Module RegExpFacts.
Import RegExp.

Lemma string_of_list_ascii_app (l1 l2 : list ascii) :
  string_of_list_ascii (l1 ++ l2)
  = String.append (string_of_list_ascii l1) (string_of_list_ascii l2).
Proof.
  induction l1 as [| c l1 IH]; [reflexivity |].
  cbn [app string_of_list_ascii String.append]. rewrite IH. reflexivity.
Qed.

Lemma scan_from_nil (r : regex) (fuel : nat) :
  forall pos : nat, pieces_text (scan_from fuel r pos []) = EmptyString.
Proof.
  induction fuel as [| fuel IH]; intros pos; [reflexivity |].
  cbn [scan_from]. destruct (exec r pos [] _) as [e |]; [| reflexivity].
  destruct (Nat.eqb (e - pos) 0); [reflexivity |].
  cbn [pieces_text]. rewrite firstn_nil, skipn_nil, IH. reflexivity.
Qed.

(** The pieces of a scan spell the text that was scanned. *)
Lemma scan_from_text (r : regex) (fuel : nat) :
  forall (pos : nat) (l : list ascii),
    (length l < fuel)%nat ->
    pieces_text (scan_from fuel r pos l) = string_of_list_ascii l.
Proof.
  induction fuel as [| fuel IH]; intros pos l Hlen; [lia |].
  destruct l as [| c l]; [apply scan_from_nil |].
  cbn [length] in Hlen.
  assert (Hstep : pieces_text (Kept (String c EmptyString) :: scan_from fuel r (S pos) l)
                  = string_of_list_ascii (c :: l)).
  { cbn [pieces_text String.append string_of_list_ascii]. rewrite IH by lia. reflexivity. }
  cbn [scan_from]. destruct (exec r pos (c :: l) _) as [e |]; [| exact Hstep].
  destruct (Nat.eqb_spec (e - pos) 0) as [Hz | Hnz].
  - cbn [pieces_text String.append]. exact Hstep.
  - cbn [pieces_text]. rewrite IH.
    + rewrite <- string_of_list_ascii_app, firstn_skipn. reflexivity.
    + destruct (e - pos)%nat as [| k]; [lia |]. cbn [skipn].
      pose proof (length_skipn k l). lia.
Qed.

Lemma scan_text (r : regex) (s : string) : pieces_text (scan r s) = s.
Proof.
  unfold scan. rewrite scan_from_text by lia. apply string_of_list_ascii_of_string.
Qed.

End RegExpFacts.

(** X11.  The rules are applied one after the other: redacting with the
    rules [rules1] followed by [rules2] gives the text of redacting with
    [rules2] what [rules1] produced, and reports the keys of both runs in
    that order. *)
Theorem redact_sequential :
  forall (R : Type) (RegExp_new : string -> result R)
         (matches : R -> string -> list piece)
         (callee : value -> options_arg -> result string)
         (rules1 rules2 : list (string * options_arg)) (data : string),
    redact R RegExp_new matches callee (rules1 ++ rules2) data
    = (fst (redact R RegExp_new matches callee rules2
              (fst (redact R RegExp_new matches callee rules1 data))),
       snd (redact R RegExp_new matches callee rules1 data)
       ++ snd (redact R RegExp_new matches callee rules2
                 (fst (redact R RegExp_new matches callee rules1 data)))).
Proof. intros. apply redact_app. Qed.

(** X12.  The keys that [redactFile] reports on [console.error] are keys
    of the rules, in the order of the rules, each rule at most once. *)
Theorem redact_reports :
  forall (R : Type) (RegExp_new : string -> result R)
         (matches : R -> string -> list piece)
         (callee : value -> options_arg -> result string)
         (rules : list (string * options_arg)) (data : string),
    sublist (snd (redact R RegExp_new matches callee rules data)) (map fst rules)
    /\ (length (snd (redact R RegExp_new matches callee rules data)) <= length rules)%nat.
Proof.
  intros. pose proof (redact_errors_sublist R RegExp_new matches callee rules data) as Hsub.
  split; [exact Hsub |]. apply sublist_length in Hsub.
  rewrite length_map in Hsub. exact Hsub.
Qed.

(** X13.  A rule whose value is [null], which [JSON.parse] produces for
    the text [null], with [mask] of [mask.js]: where its pattern matches,
    the text stays as it is and the key is reported, because [mask]
    cannot destructure [null]; where the pattern does not match, [mask]
    is not called and nothing is reported. *)
Theorem redact_null_rule :
  forall (R : Type) (RegExp_new : string -> result R)
         (matches : R -> string -> list piece)
         (key : string) (regex : R) (text : string) (errors : list string),
    RegExp_new key = Ok regex ->
    (existsb is_match (matches regex text) = true ->
     apply_rule R RegExp_new matches mask (text, errors) (key, OptionsNull)
     = (text, errors ++ [key]))
    /\ (existsb is_match (matches regex text) = false ->
        apply_rule R RegExp_new matches mask (text, errors) (key, OptionsNull)
        = (pieces_text (matches regex text), errors)).
Proof.
  intros R RegExp_new matches key regex text errors Hkey. split; intros Hm.
  - apply (apply_rule_throwing R RegExp_new matches mask text errors key OptionsNull
             regex TypeError Hkey); [reflexivity | exact Hm].
  - apply (apply_rule_no_match R RegExp_new matches mask text errors key OptionsNull
             regex Hkey Hm).
Qed.

Lemma redact_null_rule_witness :
  RegExp.compile card_pattern = Ok card_regex
  /\ existsb is_match (RegExp.scan card_regex sample_text) = true
  /\ apply_rule RegExp.regex RegExp.compile RegExp.scan mask (sample_text, [])
       (card_pattern, OptionsNull)
     = (sample_text, [] ++ [card_pattern]).
Proof.
  assert (H1 : RegExp.compile card_pattern = Ok card_regex) by (vm_compute; reflexivity).
  assert (H2 : existsb is_match (RegExp.scan card_regex sample_text) = true)
    by (vm_compute; reflexivity).
  split; [exact H1 |]. split; [exact H2 |].
  exact (proj1 (redact_null_rule RegExp.regex RegExp.compile RegExp.scan
                  card_pattern card_regex sample_text [] H1) H2).
Defined.

(** X23.  Whatever the engine and whatever the callee, a rule whose
    pattern fails to compile is reported and leaves the text to the
    other rules: the text that comes out is the text that the rules
    before and after it produce without it, so one malformed pattern
    does not end the loop. *)
Theorem redact_skips_invalid_pattern :
  forall (R : Type) (RegExp_new : string -> result R)
         (matches : R -> string -> list piece)
         (callee : value -> options_arg -> result string)
         (rules1 rules2 : list (string * options_arg))
         (key : string) (rule : options_arg) (data : string) (e : error),
    RegExp_new key = Throw e ->
    fst (redact R RegExp_new matches callee (rules1 ++ (key, rule) :: rules2) data)
    = fst (redact R RegExp_new matches callee (rules1 ++ rules2) data)
    /\ In key (snd (redact R RegExp_new matches callee
                      (rules1 ++ (key, rule) :: rules2) data)).
Proof.
  intros R RegExp_new matches callee rules1 rules2 key rule data e Hkey.
  exact (redact_invalid_pattern R RegExp_new matches callee
           rules1 rules2 key rule data e Hkey).
Qed.

Lemma redact_skips_invalid_pattern_witness :
  RegExp.compile "(" = Throw SyntaxError
  /\ fst (redact RegExp.regex RegExp.compile RegExp.scan mask
            ([(email_pattern, email_rule)] ++ ("("%string, OptionsNull)
               :: [(card_pattern, card_rule)]) sample_text)
     = fst (redact RegExp.regex RegExp.compile RegExp.scan mask
              ([(email_pattern, email_rule)] ++ [(card_pattern, card_rule)])
              sample_text)
  /\ In "("%string
       (snd (redact RegExp.regex RegExp.compile RegExp.scan mask
               ([(email_pattern, email_rule)] ++ ("("%string, OptionsNull)
                  :: [(card_pattern, card_rule)]) sample_text)).
Proof.
  assert (H : RegExp.compile "(" = Throw SyntaxError) by (vm_compute; reflexivity).
  split; [exact H |].
  exact (redact_skips_invalid_pattern RegExp.regex RegExp.compile RegExp.scan mask
           [(email_pattern, email_rule)] [(card_pattern, card_rule)] "("%string
           OptionsNull sample_text SyntaxError H).
Defined.

(** X14.  On an engine whose pieces spell the text they were cut from,
    the text comes out of [redactFile] as it went in when every rule
    either has no match in it or has a value for which the callee throws
    at every match. *)
Theorem redact_unchanged :
  forall (R : Type) (RegExp_new : string -> result R)
         (matches : R -> string -> list piece)
         (callee : value -> options_arg -> result string)
         (rules : list (string * options_arg)) (data : string),
    (forall key regex, RegExp_new key = Ok regex ->
       pieces_text (matches regex data) = data) ->
    (forall key rule regex,
        In (key, rule) rules -> RegExp_new key = Ok regex ->
        existsb is_match (matches regex data) = false
        \/ exists e, forall m, callee (VString m) rule = Throw e) ->
    fst (redact R RegExp_new matches callee rules data) = data.
Proof.
  intros R RegExp_new matches callee rules data Hengine Hrules.
  apply fold_rules_unchanged; assumption.
Qed.

Lemma redact_unchanged_witness :
  (forall key regex, RegExp.compile key = Ok regex ->
     pieces_text (RegExp.scan regex sample_text) = sample_text)
  /\ fst (redact RegExp.regex RegExp.compile RegExp.scan mask
            [(card_pattern, OptionsNull); (email_pattern, OptionsNull)] sample_text)
     = sample_text.
Proof.
  assert (H1 : forall key regex, RegExp.compile key = Ok regex ->
                 pieces_text (RegExp.scan regex sample_text) = sample_text)
    by (intros key regex _; apply RegExpFacts.scan_text).
  split; [exact H1 |].
  apply (redact_unchanged RegExp.regex RegExp.compile RegExp.scan mask
           [(card_pattern, OptionsNull); (email_pattern, OptionsNull)] sample_text H1).
  intros key rule regex [Hin | [Hin | []]] _; injection Hin as _ <-;
    right; exists TypeError; intros m; reflexivity.
Defined.

(** X15.  [redactFile] as [cli.js] stands, where the identifier [mask] is
    not bound: on an engine whose pieces spell the text they were cut
    from, the output file receives the content of the input file
    unchanged, whatever the rules are; no other file is written. *)
Theorem redactFile_with_unbound_mask :
  forall (R : Type) (RegExp_new : string -> result R)
         (matches : R -> string -> list piece)
         (files : string -> option string) (filePath outputPath : string)
         (rules : list (string * options_arg)) (data : string),
    files filePath = Some data ->
    (forall key regex, RegExp_new key = Ok regex ->
       pieces_text (matches regex data) = data) ->
    forall path : string,
      redactFile R RegExp_new matches unbound_mask files filePath rules outputPath path
      = if String.eqb path outputPath then Some data else files path.
Proof.
  intros R RegExp_new matches files filePath outputPath rules data Hfile Hengine path.
  unfold redactFile. rewrite Hfile. cbv zeta.
  rewrite (fold_rules_unchanged R RegExp_new matches unbound_mask
             rules data Hengine).
  - reflexivity.
  - intros key rule regex _ _. right. exists ReferenceError. intros m. reflexivity.
Qed.

Lemma redactFile_with_unbound_mask_witness :
  (fun path => if String.eqb path "in.txt" then Some sample_text else None)
    "in.txt"%string = Some sample_text
  /\ (forall key regex, RegExp.compile key = Ok regex ->
        pieces_text (RegExp.scan regex sample_text) = sample_text)
  /\ redactFile RegExp.regex RegExp.compile RegExp.scan unbound_mask
       (fun path => if String.eqb path "in.txt" then Some sample_text else None)
       "in.txt" [(card_pattern, card_rule); (email_pattern, email_rule)] "out.txt"
       "out.txt"
     = Some sample_text.
Proof.
  assert (H1 : (fun path => if String.eqb path "in.txt" then Some sample_text else None)
                 "in.txt"%string = Some sample_text) by reflexivity.
  assert (H2 : forall key regex, RegExp.compile key = Ok regex ->
                 pieces_text (RegExp.scan regex sample_text) = sample_text)
    by (intros key regex _; apply RegExpFacts.scan_text).
  split; [exact H1 |]. split; [exact H2 |].
  exact (redactFile_with_unbound_mask RegExp.regex RegExp.compile RegExp.scan
           (fun path => if String.eqb path "in.txt" then Some sample_text else None)
           "in.txt" "out.txt" [(card_pattern, card_rule); (email_pattern, email_rule)]
           sample_text H1 H2 "out.txt"%string).
Defined.

(** ** index.js and hash.js: hash and compare *)

Section HashFacts.

Variable Digest : string -> list chunk -> string -> string.

Lemma sha_digest_ok (s alg enc : string) (salt : option salt_value) :
  sha_digest Digest s alg enc salt
  = match salt with
    | Some (SaltOther true) => Throw TypeError
    | Some (SaltString t) =>
        if String.eqb t EmptyString then Ok (Digest alg [Utf8 s] enc)
        else Ok (Digest alg [Utf8 t; Utf8 s] enc)
    | Some (SaltBuffer b) => Ok (Digest alg [Bytes b; Utf8 s] enc)
    | _ => Ok (Digest alg [Utf8 s] enc)
    end.
Proof.
  unfold sha_digest. destruct salt as [[t | b | [|]] |]; cbn; try reflexivity.
  destruct (String.eqb t ""%string); reflexivity.
Qed.

End HashFacts.

Lemma stream_append (a b c : string) :
  String.append (String.append a b) c = String.append a (String.append b c).
Proof.
  induction a as [| x a IH]; [reflexivity |].
  cbn [String.append]. rewrite IH. reflexivity.
Qed.

(** X16.  For the algorithms ['sha256'] and ['sha512'], [compare] accepts
    the hash that [hash] returns with the default encoding and no salt,
    and accepts no other string: it answers [true] exactly for the
    hexadecimal digest of the string alone.  A hash made with a salt or
    with another encoding is accepted only if it happens to equal that
    digest. *)
Theorem hash_compare_round_trip :
  forall (Digest : string -> list chunk -> string -> string) (s alg : string),
    sha_algorithm alg = true ->
    hash Digest (VString s)
      (HashOptionsObject {| algorithm := Some alg; encoding := None;
                            rounds := None; salt := None |})
    = Ok (Digest alg [Utf8 s] "hex"%string)
    /\ stringUtils_compare Digest (VString s) (VString (Digest alg [Utf8 s] "hex"%string))
         (Some alg) = Ok true
    /\ (forall h : string,
          stringUtils_compare Digest (VString s) (VString h) (Some alg) = Ok true
          <-> h = Digest alg [Utf8 s] "hex"%string).
Proof.
  intros Digest s alg Halg.
  assert (Hhash : hash Digest (VString s)
      (HashOptionsObject {| algorithm := Some alg; encoding := None;
                            rounds := None; salt := None |})
    = Ok (Digest alg [Utf8 s] "hex"%string)).
  { unfold hash. cbn [destructure_hash bind algorithm encoding salt default from_option id].
    rewrite Halg. reflexivity. }
  assert (Hcmp : forall h, stringUtils_compare Digest (VString s) (VString h) (Some alg)
                           = Ok (String.eqb (Digest alg [Utf8 s] "hex"%string) h)).
  { intros h. unfold stringUtils_compare. cbn [default from_option id].
    rewrite Halg, Hhash. reflexivity. }
  split; [exact Hhash |]. split.
  - rewrite Hcmp, String.eqb_refl. reflexivity.
  - intros h. rewrite Hcmp. split.
    + intros [= Heq]. apply String.eqb_eq in Heq. symmetry. exact Heq.
    + intros ->. rewrite String.eqb_refl. reflexivity.
Qed.

Lemma hash_compare_round_trip_witness :
  sha_algorithm "sha512" = true
  /\ stringUtils_compare stream_digest (VString "secret")
       (VString (stream_digest "sha512" [Utf8 "secret"] "hex")) (Some "sha512"%string)
     = Ok true.
Proof.
  assert (H : sha_algorithm "sha512" = true) by reflexivity.
  split; [exact H |].
  exact (proj1 (proj2 (hash_compare_round_trip stream_digest "secret" "sha512" H))).
Defined.

(** X17.  [hash] returns exactly when the input is a string, the
    algorithm is ['sha256'] or ['sha512'], and the salt is falsy, a
    string or a [Buffer]; in every other case it throws a [TypeError].
    A falsy salt of any type, the empty string included, is ignored and
    not rejected. *)
Theorem hash_returns_iff :
  forall (Digest : string -> list chunk -> string -> string)
         (str : value) (o : hash_options),
    ((exists d, hash Digest str (HashOptionsObject o) = Ok d) <->
     is_string str = true /\
     sha_algorithm (default "sha256"%string (algorithm o)) = true /\
     (salt_truthy (salt o) = true ->
      exists s, salt o = Some s /\ _validateSalt s = Ok tt))
    /\ ((exists d, hash Digest str (HashOptionsObject o) = Ok d)
        \/ hash Digest str (HashOptionsObject o) = Throw TypeError).
Proof.
  intros Digest str o. destruct str as [| | | | s |];
    try (split; [split; [intros [d Hd]; discriminate Hd | intros [Hs _]; discriminate Hs]
                | right; reflexivity]).
  unfold hash. cbn [destructure_hash bind is_string].
  destruct (sha_algorithm (default "sha256"%string (algorithm o))) eqn:Halg.
  - rewrite sha_digest_ok.
    destruct (salt o) as [[t | b | [|]] |]; cbn [salt_truthy];
      try destruct (String.eqb t ""%string); cbn [negb];
      try (split; [split; [intros _; repeat split; try reflexivity; intros Hf;
                            first [discriminate Hf | eexists; split; reflexivity]
                          | intros _; eexists; reflexivity]
                  | left; eexists; reflexivity]).
    split; [split | right; reflexivity].
    + intros [d Hd]. discriminate Hd.
    + intros (_ & _ & Hs). destruct (Hs eq_refl) as (s' & [= <-] & Hv). discriminate Hv.
  - split; [split | right; reflexivity].
    + intros [d Hd]. discriminate Hd.
    + intros (_ & Hf & _). discriminate Hf.
Qed.

Lemma hash_returns_iff_witness :
  is_string (VString "secret") = true
  /\ sha_algorithm (default "sha256"%string (algorithm no_hash_options)) = true
  /\ exists d, hash stream_digest (VString "secret") (HashOptionsObject no_hash_options)
               = Ok d.
Proof.
  assert (H1 : is_string (VString "secret") = true) by reflexivity.
  assert (H2 : sha_algorithm (default "sha256"%string (algorithm no_hash_options)) = true)
    by reflexivity.
  split; [exact H1 |]. split; [exact H2 |].
  apply (proj2 (proj1 (hash_returns_iff stream_digest (VString "secret")
                         no_hash_options))).
  split; [exact H1 |]. split; [exact H2 |]. intros Hsalt. discriminate Hsalt.
Defined.

(** X18.  The salt is fed to the digest before the string and nothing
    separates them: on a digest that reads its updates as one stream,
    hashing [s] with the salt [t] is hashing the string [t ++ s] without
    a salt, so two pairs of salt and string with the same concatenation
    have the same hash. *)
Theorem hash_salt_is_prefix :
  forall (Digest : string -> list chunk -> string -> string)
         (s t alg enc : string),
    (forall a b, Digest alg [Utf8 a; Utf8 b] enc = Digest alg [Utf8 (String.append a b)] enc) ->
    sha_algorithm alg = true ->
    hash Digest (VString s)
      (HashOptionsObject {| algorithm := Some alg; encoding := Some enc;
                            rounds := None; salt := Some (SaltString t) |})
    = hash Digest (VString (String.append t s))
        (HashOptionsObject {| algorithm := Some alg; encoding := Some enc;
                              rounds := None; salt := None |}).
Proof.
  intros Digest s t alg enc Hstream Halg. unfold hash.
  cbn [destructure_hash bind algorithm encoding salt default from_option id].
  rewrite Halg, !sha_digest_ok. destruct (String.eqb_spec t ""%string) as [-> | Hne].
  - reflexivity.
  - rewrite Hstream. reflexivity.
Qed.

Lemma hash_salt_is_prefix_witness :
  (forall a b, stream_digest "sha256" [Utf8 a; Utf8 b] "hex"
               = stream_digest "sha256" [Utf8 (String.append a b)] "hex")
  /\ sha_algorithm "sha256" = true
  /\ hash stream_digest (VString "word")
       (HashOptionsObject {| algorithm := Some "sha256"%string;
                             encoding := Some "hex"%string;
                             rounds := None; salt := Some (SaltString "pass") |})
     = hash stream_digest (VString "password")
         (HashOptionsObject {| algorithm := Some "sha256"%string;
                               encoding := Some "hex"%string;
                               rounds := None; salt := None |}).
Proof.
  assert (H1 : forall a b, stream_digest "sha256" [Utf8 a; Utf8 b] "hex"
                           = stream_digest "sha256" [Utf8 (String.append a b)] "hex").
  { intros a b. unfold stream_digest. cbn [stream_text].
    rewrite (stream_append a b ""). reflexivity. }
  assert (H2 : sha_algorithm "sha256" = true) by reflexivity.
  split; [exact H1 |]. split; [exact H2 |].
  exact (hash_salt_is_prefix stream_digest "word" "pass" "sha256" "hex" H1 H2).
Defined.

(** X19.  [hashUtils.hash] of [hash.js] never returns for the algorithm
    ['bcrypt']: without a truthy salt it throws a [TypeError], with one a
    [ReferenceError], the identifier [bcrypt] being unbound.  For every
    other algorithm it does what [stringUtils.hash] does. *)
Theorem hashUtils_hash_cases :
  forall (Digest : string -> list chunk -> string -> string)
         (s : string) (o : hash_options),
    (default "sha256"%string (algorithm o) = "bcrypt"%string ->
     hashUtils_hash Digest (VString s) (HashOptionsObject o)
     = Throw (if salt_truthy (salt o) then ReferenceError else TypeError))
    /\ (default "sha256"%string (algorithm o) <> "bcrypt"%string ->
        hashUtils_hash Digest (VString s) (HashOptionsObject o)
        = hash Digest (VString s) (HashOptionsObject o)).
Proof.
  intros Digest s o. unfold hashUtils_hash, hash. cbn [destructure_hash bind]. split.
  - intros ->. cbn [String.eqb Ascii.eqb Bool.eqb].
    destruct (salt_truthy (salt o)); reflexivity.
  - intros Hne. destruct (String.eqb_spec (default "sha256"%string (algorithm o)) "bcrypt"%string);
      [contradiction | reflexivity].
Qed.

Lemma hashUtils_hash_cases_witness :
  default "sha256"%string
    (algorithm {| algorithm := Some "bcrypt"%string; encoding := None;
                  rounds := Some 12; salt := Some (SaltString "pepper") |})
  = "bcrypt"%string
  /\ hashUtils_hash stream_digest (VString "secret")
       (HashOptionsObject {| algorithm := Some "bcrypt"%string; encoding := None;
                             rounds := Some 12; salt := Some (SaltString "pepper") |})
     = Throw ReferenceError.
Proof.
  assert (H : default "sha256"%string
                (algorithm {| algorithm := Some "bcrypt"%string; encoding := None;
                              rounds := Some 12; salt := Some (SaltString "pepper") |})
              = "bcrypt"%string) by reflexivity.
  split; [exact H |].
  exact (proj1 (hashUtils_hash_cases stream_digest "secret"
                  {| algorithm := Some "bcrypt"%string; encoding := None;
                     rounds := Some 12; salt := Some (SaltString "pepper") |}) H).
Defined.

(** ** random.js *)

Module RandomFacts.
Import StringFacts.







Section Loop.

Variable randomInt : nat -> Z -> Z.



End Loop.

End RandomFacts.





(** ** cli.js: the command [mask] *)

(** X22.  The command [mask] reads the options [visibleStart],
    [visibleEnd] and [sensitivity] only: the short flags [-s], [-e] and
    [-l] that the help lists change nothing.  The string it masks is the
    first argument after the command, also when that argument is a flag:
    a string placed after a flag and its value is ignored.  And as the
    file stands, with [mask] unbound, the command never prints a masked
    string. *)
Theorem cli_mask_arguments :
  forall (parseInt : option cli_value -> number)
         (callee : string -> number -> number -> cli_value -> result string)
         (str a b c : string),
    startsWith_dash str = false ->
    (run_mask parseInt callee [str; "-s"; a; "-e"; b; "-l"; c]%string
     = run_mask parseInt callee [str])
    /\ (forall flag v : string,
          startsWith_dash flag = true ->
          run_mask parseInt callee [flag; v; str] = run_mask parseInt callee [flag; v]
          /\ (forall masked : string,
                run_mask parseInt callee [flag; v; str]
                = Log (String.append "Masked string: " masked) ->
                exists (visibleStart visibleEnd : number) (sensitivity : cli_value),
                  callee flag visibleStart visibleEnd sensitivity = Ok masked))
    /\ (forall (args : list string) (masked : string),
          run_mask parseInt unbound_callee args <> Log masked).
Proof.
  intros parseInt callee str a b c Hstr. split; [| split].
  - unfold run_mask. cbn [parse_options]. rewrite Hstr.
    cbn [parse_options startsWith_dash optionName]. reflexivity.
  - intros flag v Hflag. unfold run_mask. cbn [parse_options].
    rewrite Hflag, Hstr. cbn [parse_options]. split; [reflexivity |].
    intros masked. unfold mask_handler.
    destruct (String.eqb flag ""); [discriminate |].
    destruct (callee flag _ _ _) as [r |] eqn:Hcall; [| discriminate].
    intros [= Heq]. subst r. eauto.
  - intros args masked. unfold run_mask, mask_handler, unbound_callee.
    destruct args as [| x args]; [discriminate |].
    destruct (String.eqb x ""); discriminate.
Qed.

Lemma cli_mask_arguments_witness :
  startsWith_dash "secret" = false
  /\ run_mask parseInt_digits unbound_callee
       ["secret"; "-s"; "1"; "-e"; "1"; "-l"; "high"]%string
     = run_mask parseInt_digits unbound_callee ["secret"%string].
Proof.
  assert (H : startsWith_dash "secret" = false) by reflexivity.
  split; [exact H |].
  exact (proj1 (cli_mask_arguments parseInt_digits unbound_callee
                  "secret" "1" "1" "high" H)).
Defined.
